(** * TopoModelX: the Dist2Cycle simplicial layer

    A shallow embedding of [topomodelx/nn/simplicial/dist2cycle_layer.py].

    Tensors are a shape together with row-major data over a scalar type [F]
    (the tensor's dtype).  Python objects live in a store addressed by
    references; the layer's methods are computations in a state-and-exception
    monad over that store and the random generator. *)

From Stdlib Require Import ZArith Reals Lra Lia String.
From stdpp Require Import base list.

Set Default Proof Using "Type".

(** ** Scalars *)

(** The arithmetic a dtype offers to the tensor kernels used here. *)
Class Scalar (F : Type) := {
  f0 : F;
  fadd : F -> F -> F;
  fsub : F -> F -> F;
  fopp : F -> F;
  fmul : F -> F -> F;
  fdiv : F -> F -> F;
  fsqrt : F -> F;
  fofnat : nat -> F;
  frelu : F -> F
}.

(** ** Exceptions *)

(** The operation at which an exception is raised. *)
Inductive Op := OpMul | OpStack | OpLinear | OpInit.

Inductive exn :=
| ShapeMismatch (op : Op) (s1 s2 : list nat)
| NotATensor (op : Op)
| ValueError (op : Op).

Inductive result (A : Type) :=
| Ok (a : A)
| Raise (e : exn).
Arguments Ok {A} a.
Arguments Raise {A} e.

(** ** Tensors *)

Section Tensors.
Context {F : Type} {SF : Scalar F}.

Record Tensor := mkTensor { shape : list nat; data : list F }.

(** [torch.Tensor.numel] of a shape. *)
Definition numel (s : list nat) : nat := fold_right Nat.mul 1 s.

(** The storage holds exactly one scalar per index. *)
Definition wf (t : Tensor) : Prop := length (data t) = numel (shape t).

(** [torch.empty]: storage whose contents are never read before being
    written; it is represented filled with [f0]. *)
Definition torch_empty (s : list nat) : Tensor :=
  {| shape := s; data := replicate (numel s) f0 |}.

(** *** Broadcasting *)

Definition broadcast_dim (a b : nat) : option nat :=
  if a =? b then Some a
  else if a =? 1 then Some b
  else if b =? 1 then Some a
  else None.

(** Shapes are aligned at their trailing dimension, so the recursion runs
    over the reversed shapes. *)
Fixpoint broadcast_rev (s1 s2 : list nat) : option (list nat) :=
  match s1, s2 with
  | [], s => Some s
  | s, [] => Some s
  | a :: s1', b :: s2' =>
      match broadcast_dim a b, broadcast_rev s1' s2' with
      | Some d, Some r => Some (d :: r)
      | _, _ => None
      end
  end.

Definition broadcast_shapes (s1 s2 : list nat) : option (list nat) :=
  option_map (@rev nat) (broadcast_rev (rev s1) (rev s2)).

(** All multi-indices of a shape, in row-major order. *)
Fixpoint indices (s : list nat) : list (list nat) :=
  match s with
  | [] => [[]]
  | d :: s' => flat_map (fun i => map (cons i) (indices s')) (seq 0 d)
  end.

(** Row-major offset of a multi-index into a tensor of shape [s] that is
    being broadcast; both lists are reversed.  A dimension of size one is
    read at index zero, and leading dimensions the tensor lacks are
    ignored. *)
Fixpoint offset_rev (s idx : list nat) (stride : nat) : nat :=
  match s, idx with
  | d :: s', i :: idx' =>
      (if d =? 1 then 0 else i) * stride + offset_rev s' idx' (stride * d)
  | _, _ => 0
  end.

Definition bget (t : Tensor) (idx : list nat) : F :=
  nth (offset_rev (rev (shape t)) (rev idx) 1) (data t) f0.

(** *** Kernels *)

(** [a * b]: element-wise product with broadcasting. *)
Definition tensor_mul (a b : Tensor) : result Tensor :=
  match broadcast_shapes (shape a) (shape b) with
  | Some s =>
      Ok {| shape := s;
            data := map (fun idx => fmul (bget a idx) (bget b idx)) (indices s) |}
  | None => Raise (ShapeMismatch OpMul (shape a) (shape b))
  end.

(** Element-wise sum of two tensors of one shape. *)
Definition tensor_add (a b : Tensor) : Tensor :=
  {| shape := shape a; data := zip_with fadd (data a) (data b) |}.

(** [torch.nn.functional.relu]. *)
Definition relu (t : Tensor) : Tensor :=
  {| shape := shape t; data := map frelu (data t) |}.

Definition dot (xs ws : list F) : F :=
  fold_left fadd (zip_with fmul xs ws) f0.

(** Row [r] of a row-major matrix with [n] columns. *)
Definition row (n : nat) (d : list F) (r : nat) : list F :=
  take n (drop (r * n) d).

Definition linear_data (x W b : list F) (nrows inn out : nat) : list F :=
  flat_map
    (fun r => map (fun o => fadd (dot (row inn x r) (row inn W o)) (nth o b f0))
                  (seq 0 out))
    (seq 0 nrows).

(** [torch.nn.functional.linear] for the layout [nn.Linear] holds: a weight
    of shape [(out, in)], a bias of shape [(out,)] and an input of shape
    [(..., in)].  The trailing dimension of the input is checked against the
    weight here, at the product itself. *)
Definition linear (x W b : Tensor) : result Tensor :=
  match shape W, rev (shape x) with
  | [out; inn], c :: lead_rev =>
      if (c =? inn) && bool_decide (shape b = [out]) then
        Ok {| shape := rev lead_rev ++ [out];
              data := linear_data (data x) (data W) (data b)
                                  (numel (rev lead_rev)) inn out |}
      else Raise (ShapeMismatch OpLinear (shape x) (shape W))
  | _, _ => Raise (ShapeMismatch OpLinear (shape x) (shape W))
  end.

(** Modelled from the spec: [topomodelx.base.aggregation.Aggregation] as the
    layer configures it ([aggr_func="sum"], [update_func="relu"]).  It
    accepts an ordered collection of tensors of identical shape, sums them
    element-wise and passes the sum through the rectified-linear function.
    The spec gives no result for an empty collection, which has no shape;
    it is rejected. *)
Definition aggregation (xs : list Tensor) : result Tensor :=
  match xs with
  | [] => Raise (ValueError OpStack)
  | x :: rest =>
      match list_find (fun y => shape y <> shape x) rest with
      | Some (_, y) => Raise (ShapeMismatch OpStack (shape x) (shape y))
      | None => Ok (relu (fold_left tensor_add rest x))
      end
  end.

End Tensors.

Arguments Tensor F : clear implicits.

(** ** The object store and the method monad *)

(** A reference to a tensor object. *)
Definition loc := nat.

Section Store.
Context {F : Type} {SF : Scalar F}.

(** The default random generator: a stream of unit samples and the number
    of samples consumed so far. *)
Record Generator := mkGenerator { stream : nat -> F; pos : nat }.

Record State := mkState { heap : list (Tensor F); gen : Generator }.

(** A method either returns or raises; the store persists either way. *)
Definition M (A : Type) : Type := State -> result A * State.

Definition ret {A} (a : A) : M A := fun st => (Ok a, st).

Definition raise {A} (e : exn) : M A := fun st => (Raise e, st).

Definition bind {A B} (m : M A) (k : A -> M B) : M B :=
  fun st =>
    match m st with
    | (Ok a, st') => k a st'
    | (Raise e, st') => (Raise e, st')
    end.

Definition lift {A} (r : result A) : M A := fun st => (r, st).

(** Reading the tensor behind a reference; an operand that is no tensor of
    the store is rejected by the operation that receives it. *)
Definition deref (op : Op) (l : loc) : M (Tensor F) :=
  fun st =>
    match heap st !! l with
    | Some t => (Ok t, st)
    | None => (Raise (NotATensor op), st)
    end.

(** A new object gets the next free reference. *)
Definition alloc (t : Tensor F) : M loc :=
  fun st => (Ok (length (heap st)), {| heap := heap st ++ [t]; gen := gen st |}).

(** In-place update of an existing object. *)
Definition store (l : loc) (t : Tensor F) : M unit :=
  fun st => (Ok tt, {| heap := <[l := t]> (heap st); gen := gen st |}).

(** [n] unit samples of a generator, starting at position [k]. *)
Definition draws (g : Generator) (k n : nat) : list F :=
  map (stream g) (seq k n).

Definition draw (n : nat) : M (list F) :=
  fun st =>
    (Ok (draws (gen st) (pos (gen st)) n),
     {| heap := heap st;
        gen := {| stream := stream (gen st); pos := pos (gen st) + n |} |}).

End Store.

Arguments Generator F : clear implicits.
Arguments State F : clear implicits.
Arguments M F A : clear implicits.

Notation "x <- m ;; k" := (bind m (fun x => k))
  (at level 100, m at next level, right associativity).
Notation "m ;;; k" := (bind m (fun _ => k))
  (at level 100, right associativity).

Section Torch.
Context {F : Type} {SF : Scalar F}.

Fixpoint deref_all (op : Op) (ls : list loc) : M F (list (Tensor F)) :=
  match ls with
  | [] => ret []
  | l :: ls' => t <- deref op l ;; ts <- deref_all op ls' ;; ret (t :: ts)
  end.

(** [a * b] on tensor objects. *)
Definition torch_mul (a b : loc) : M F loc :=
  ta <- deref OpMul a ;;
  tb <- deref OpMul b ;;
  t <- lift (tensor_mul ta tb) ;;
  alloc t.

(** Calling the [Aggregation] module on a list of tensor objects. *)
Definition Aggregation_forward (xs : list loc) : M F loc :=
  ts <- deref_all OpStack xs ;;
  t <- lift (aggregation ts) ;;
  alloc t.

(** [torch.nn.Linear]: the two parameters are tensor objects. *)
Record Linear := mkLinear {
  in_features : nat;
  out_features : nat;
  weight : loc;
  bias : loc
}.

Definition Linear_forward (self : Linear) (input : loc) : M F loc :=
  x <- deref OpLinear input ;;
  W <- deref OpLinear (weight self) ;;
  b <- deref OpLinear (bias self) ;;
  t <- lift (linear x W b) ;;
  alloc t.

(** *** [torch.nn.init] *)

(** An entry drawn by [uniform_(lo, hi)] from the unit sample [u]. *)
Definition uniform_sample (lo hi u : F) : F := fadd lo (fmul (fsub hi lo) u).

(** [Tensor.uniform_(lo, hi)]: every entry is overwritten in place by
    [lo + (hi - lo) * u] for a fresh unit sample [u]. *)
Definition uniform_ (l : loc) (lo hi : F) : M F unit :=
  t <- deref OpInit l ;;
  us <- draw (length (data t)) ;;
  store l {| shape := shape t; data := map (uniform_sample lo hi) us |}.

Definition calculate_fan_in_and_fan_out (t : Tensor F) : result (nat * nat) :=
  match shape t with
  | num_output_fmaps :: num_input_fmaps :: rest =>
      let receptive_field_size := numel rest in
      Ok (num_input_fmaps * receptive_field_size,
          num_output_fmaps * receptive_field_size)
  | _ => Raise (ValueError OpInit)
  end.

Definition linear_fns : list string :=
  ["linear"; "conv1d"; "conv2d"; "conv3d"; "conv_transpose1d";
   "conv_transpose2d"; "conv_transpose3d"]%string.

Definition calculate_gain (nonlinearity : string) (param : F) : result F :=
  if existsb (String.eqb nonlinearity) linear_fns
     || String.eqb nonlinearity "sigmoid" then Ok (fofnat 1)
  else if String.eqb nonlinearity "tanh" then Ok (fdiv (fofnat 5) (fofnat 3))
  else if String.eqb nonlinearity "relu" then Ok (fsqrt (fofnat 2))
  else if String.eqb nonlinearity "leaky_relu" then
    Ok (fsqrt (fdiv (fofnat 2) (fadd (fofnat 1) (fmul param param))))
  else if String.eqb nonlinearity "selu" then Ok (fdiv (fofnat 3) (fofnat 4))
  else Raise (ValueError OpInit).

(** [kaiming_uniform_(tensor, a, mode="fan_in", nonlinearity)]; a tensor
    with a dimension of size zero is left as it is. *)
Definition kaiming_uniform_ (l : loc) (a : F) (nonlinearity : string) : M F unit :=
  t <- deref OpInit l ;;
  if existsb (Nat.eqb 0) (shape t) then ret tt
  else
    fans <- lift (calculate_fan_in_and_fan_out t) ;;
    gain <- lift (calculate_gain nonlinearity a) ;;
    let std := fdiv gain (fsqrt (fofnat (fst fans))) in
    let bound := fmul (fsqrt (fofnat 3)) std in
    uniform_ l (fopp bound) bound.

(** [Linear.reset_parameters]: the library's default initialisation of
    the weight and, the layer being built with [bias=True], of the bias. *)
Definition Linear_reset_parameters (self : Linear) : M F unit :=
  kaiming_uniform_ (weight self) (fsqrt (fofnat 5)) "leaky_relu" ;;;
  W <- deref OpInit (weight self) ;;
  fans <- lift (calculate_fan_in_and_fan_out W) ;;
  let bound :=
    if 0 <? fst fans then fdiv (fofnat 1) (fsqrt (fofnat (fst fans))) else f0 in
  uniform_ (bias self) (fopp bound) bound.

(** [nn.Linear(in_features, out_features, bias=True)]. *)
Definition Linear_init (in_features out_features : nat) : M F Linear :=
  w <- alloc (torch_empty [out_features; in_features]) ;;
  b <- alloc (torch_empty [out_features]) ;;
  let self := mkLinear in_features out_features w b in
  Linear_reset_parameters self ;;;
  ret self.

(** ** The layer *)

Record Dist2CycleLayer := mkDist2CycleLayer {
  channels : nat;
  fc_neigh : Linear
}.

(** [Dist2CycleLayer.__init__]; the aggregation sub-module holds no state
    and is represented by [Aggregation_forward]. *)
Definition Dist2CycleLayer_init (channels : nat) : M F Dist2CycleLayer :=
  fc_neigh <- Linear_init channels 1 ;;
  ret (mkDist2CycleLayer channels fc_neigh).

(** [Dist2CycleLayer.reset_parameters]. *)
Definition reset_parameters (self : Dist2CycleLayer) : M F unit :=
  let fc_nonlin := "relu"%string in
  let fc_alpha := f0 in
  Linear_reset_parameters (fc_neigh self) ;;;
  kaiming_uniform_ (weight (fc_neigh self)) fc_alpha fc_nonlin.

(** [reset_parameters] invoked [n] times in a row. *)
Fixpoint reset_parameters_times (n : nat) (self : Dist2CycleLayer) : M F unit :=
  match n with
  | 0 => ret tt
  | S n' => reset_parameters self ;;; reset_parameters_times n' self
  end.

(** [Dist2CycleLayer.forward].  The argument [x_e] may be any object; the
    local name is rebound on the first line. *)
Definition forward {X : Type} (self : Dist2CycleLayer) (x_e : X)
    (Linv adjacency : loc) : M F loc :=
  x_e <- torch_mul adjacency Linv ;;
  x_e <- Aggregation_forward [x_e] ;;
  rst <- Linear_forward (fc_neigh self) x_e ;;
  ret rst.

End Torch.

(** ** Reference semantics and observations *)

Section Reference.
Context {F : Type} {SF : Scalar F}.

(** The composition of the three kernels on tensor values, without the
    store: the product of [adjacency] and [Linv], the aggregation of that
    single contribution, and the linear projection. *)
Definition forward_ref (W b adjacency Linv : Tensor F) : result (Tensor F) :=
  match tensor_mul adjacency Linv with
  | Ok p =>
      match aggregation [p] with
      | Ok q => linear q W b
      | Raise e => Raise e
      end
  | Raise e => Raise e
  end.

(** *** The layer in the words of the specification *)

(** A shape padded with leading ones up to rank [r]. *)
Definition pad_shape (r : nat) (s : list nat) : list nat :=
  replicate (r - length s) 1 ++ s.

(** Where two aligned dimensions differ, the one of size one takes the size
    of the other. *)
Definition spec_dim (a c : nat) : nat := if a =? 1 then c else a.

(** The shape two operands stretch to, aligned at the trailing dimension. *)
Definition spec_shape (s1 s2 : list nat) : list nat :=
  let r := length s1 `max` length s2 in
  zip_with spec_dim (pad_shape r s1) (pad_shape r s2).

(** The entries of a tensor of shape [src] stretched to the shape [tgt] of
    the same rank: along a dimension of size one every block of the result
    is the one block there is. *)
Fixpoint stretch (tgt src : list nat) (d : list F) : list F :=
  match tgt, src with
  | n :: tgt', m :: src' =>
      flat_map
        (fun i =>
           stretch tgt' src'
             (take (numel src') (drop ((if m =? 1 then 0 else i) * numel src') d)))
        (seq 0 n)
  | _, _ => d
  end.

Definition spec_entries (s : list nat) (t : Tensor F) : list F :=
  stretch s (pad_shape (length s) (shape t)) (data t).

(** The sum of the products of two rows, from the left. *)
Fixpoint spec_dot (acc : F) (xs ws : list F) : F :=
  match xs, ws with
  | x :: xs', w :: ws' => spec_dot (fadd acc (fmul x w)) xs' ws'
  | _, _ => acc
  end.

(** The first [n] rows of [C] entries each. *)
Fixpoint split_rows (n C : nat) (d : list F) : list (list F) :=
  match n with
  | 0 => []
  | S n' => take C d :: split_rows n' C (drop C d)
  end.

(** The layer as the specification words it: the element-wise product of
    [adjacency] and [Linv] stretched to their common shape, the rectified sum
    of that single contribution, and for each row of [C] entries its
    product with the weight plus the bias. *)
Definition spec_forward (W b adjacency Linv : Tensor F) : Tensor F :=
  let s := spec_shape (shape adjacency) (shape Linv) in
  let product := zip_with fmul (spec_entries s adjacency) (spec_entries s Linv) in
  let aggregated := map frelu product in
  let C := default 0 (last s) in
  let targets := removelast s in
  {| shape := targets ++ [1];
     data := map (fun x => fadd (spec_dot f0 x (data W))
                                (default f0 (head (data b))))
                 (split_rows (numel targets) C aggregated) |}.

(** A dimension of size [m] stretches to size [n]. *)
Definition stretches (n m : nat) : Prop := m = 1 \/ m = n.

(** What the caller observes of a call that returns a tensor object: the
    tensor it refers to, or the exception. *)
Definition returned (r : result loc * State F) : result (Tensor F) :=
  match r with
  | (Ok l, st) =>
      match heap st !! l with
      | Some t => Ok t
      | None => Raise (NotATensor OpLinear)
      end
  | (Raise e, _) => Raise e
  end.

(** The parameters of the layer are tensor objects of the store. *)
Definition params_at (st : State F) (self : Dist2CycleLayer) (W b : Tensor F) : Prop :=
  heap st !! weight (fc_neigh self) = Some W /\
  heap st !! bias (fc_neigh self) = Some b.

(** What [Dist2CycleLayer(channels=C)] establishes and every method keeps:
    a weight of shape [(1, C)] and a bias of shape [(1,)], held by two
    distinct tensor objects. *)
Definition layer_inv (st : State F) (self : Dist2CycleLayer) (C : nat) : Prop :=
  channels self = C /\
  weight (fc_neigh self) <> bias (fc_neigh self) /\
  exists W b, params_at st self W b /\
    shape W = [1; C] /\ wf W /\ shape b = [1] /\ wf b.

(** The store after the tensor of object [l] has been replaced. *)
Definition overwrite (st : State F) (l : loc) (t : Tensor F) : State F :=
  {| heap := <[l := t]> (heap st); gen := gen st |}.

(** The store after a new object has been created. *)
Definition extend (st : State F) (ts : list (Tensor F)) : State F :=
  {| heap := heap st ++ ts; gen := gen st |}.

(** The bound [sqrt 3 * (gain / sqrt fan)] of the Kaiming uniform scheme. *)
Definition kaiming_bound (gain : F) (fan : nat) : F :=
  fmul (fsqrt (fofnat 3)) (fdiv gain (fsqrt (fofnat fan))).

(** The store after [l] has been refilled from [n] fresh samples. *)
Definition refill (st : State F) (l : loc) (s : list nat) (lo hi : F) (n : nat) : State F :=
  {| heap := <[l := {| shape := s;
                       data := map (uniform_sample lo hi)
                                   (draws (gen st) (pos (gen st)) n) |}]> (heap st);
     gen := {| stream := stream (gen st); pos := pos (gen st) + n |} |}.

(** The store after [Linear.reset_parameters]: the default weight, then the
    default bias. *)
Definition after_default (st : State F) (self : Dist2CycleLayer) (C : nat) : State F :=
  let st1 :=
    let bound :=
      kaiming_bound
        (fsqrt (fdiv (fofnat 2)
                     (fadd (fofnat 1) (fmul (fsqrt (fofnat 5)) (fsqrt (fofnat 5))))))
        (C * 1) in
    refill st (weight (fc_neigh self)) [1; C] (fopp bound) bound C in
  let bound := fdiv (fofnat 1) (fsqrt (fofnat (C * 1))) in
  refill st1 (bias (fc_neigh self)) [1] (fopp bound) bound 1.

(** The store after [reset_parameters]: the default fills, then the weight
    again under the relu gain. *)
Definition after_reset (st : State F) (self : Dist2CycleLayer) (C : nat) : State F :=
  let bound := kaiming_bound (fsqrt (fofnat 2)) (C * 1) in
  refill (after_default st self C) (weight (fc_neigh self)) [1; C]
         (fopp bound) bound C.

End Reference.

(** ** Scalar instances and concrete objects *)

(** Integer tensors, on which every kernel computes. *)
#[export] Instance Z_scalar : Scalar Z := {|
  f0 := 0%Z; fadd := Z.add; fsub := Z.sub; fopp := Z.opp; fmul := Z.mul;
  fdiv := Z.div; fsqrt := Z.sqrt; fofnat := Z.of_nat; frelu := Z.max 0
|}.

(** Real-valued tensors, the idealisation of the floating-point dtypes. *)
#[export] Instance R_scalar : Scalar R := {|
  f0 := 0%R; fadd := Rplus; fsub := Rminus; fopp := Ropp; fmul := Rmult;
  fdiv := Rdiv; fsqrt := sqrt; fofnat := INR; frelu := Rmax 0
|}.

(** A layer with two channels: the weight is object 2, the bias object 3. *)
Definition ex_layer : Dist2CycleLayer := mkDist2CycleLayer 2 (mkLinear 2 1 2 3).

Definition ex_adjacency : Tensor Z := mkTensor [3; 2] [1; 0; 1; 1; 0; 1]%Z.
Definition ex_Linv : Tensor Z := mkTensor [3; 2] [2; 5; -3; 4; 7; -1]%Z.
Definition ex_weight : Tensor Z := mkTensor [1; 2] [10; 1]%Z.
Definition ex_bias : Tensor Z := mkTensor [1] [100]%Z.
Definition ex_features : Tensor Z := mkTensor [3; 2] [9; 9; 9; 9; 9; 9]%Z.
Definition ex_generator : Generator Z := mkGenerator (fun i => Z.of_nat i) 0.

(** Objects 0 and 1 are [adjacency] and [Linv]; object 4 is [x_e]. *)
Definition ex_store : State Z :=
  mkState [ex_adjacency; ex_Linv; ex_weight; ex_bias; ex_features] ex_generator.

(** The same store with other edge features, of another shape. *)
Definition ex_store' : State Z :=
  mkState [ex_adjacency; ex_Linv; ex_weight; ex_bias; mkTensor [7] []]
          ex_generator.

(** Operands that do not broadcast: object 5 has shape [(2, 3)]. *)
Definition ex_store_bad : State Z :=
  mkState [ex_adjacency; ex_Linv; ex_weight; ex_bias; ex_features;
           mkTensor [2; 3] [1; 1; 1; 1; 1; 1]%Z] ex_generator.

(** Square operands of side three, for the layer with two channels. *)
Definition ex_square : Tensor Z := mkTensor [3; 3] [1; 0; 0; 0; 1; 0; 0; 0; 1]%Z.

Definition ex_store_square : State Z :=
  mkState [ex_square; ex_square; ex_weight; ex_bias] ex_generator.

(** An adjacency of a single row, against the three rows of [ex_Linv]. *)
Definition ex_store_row : State Z :=
  mkState [mkTensor [1; 2] [1; 1]%Z; ex_Linv; ex_weight; ex_bias] ex_generator.

(** The store [ex_store] with another weight and another bias. *)
Definition ex_store_other : State Z :=
  mkState [ex_adjacency; ex_Linv; mkTensor [1; 2] [-7; 3]%Z; mkTensor [1] [42]%Z;
           ex_features] ex_generator.

(** A real-valued store holding only the parameters of [ex_real_layer]. *)
Definition ex_real_layer : Dist2CycleLayer := mkDist2CycleLayer 2 (mkLinear 2 1 0 1).

Definition ex_real_store : State R :=
  mkState [mkTensor [1; 2] [0; 0]%R; mkTensor [1] [0]%R]
          (mkGenerator (fun _ => 0%R) 0).

(** ** Properties of the kernels *)

Section KernelFacts.
Context {F : Type} {SF : Scalar F}.
Implicit Types (t p x W b : Tensor F) (s : list nat).

Lemma length_flat_map_const {A B} (f : A -> list B) (l : list A) n :
  (forall a, length (f a) = n) -> length (flat_map f l) = length l * n.
Proof.
  intros Hf. induction l as [|a l IH]; simpl; [done|].
  rewrite length_app, Hf, IH. done.
Qed.

Lemma length_indices s : length (indices s) = numel s.
Proof.
  induction s as [|d s IH]; simpl; [done|].
  rewrite (length_flat_map_const _ _ (numel s)), length_seq; [done|].
  intros i. rewrite length_map. done.
Qed.

Lemma tensor_mul_shape a c p :
  tensor_mul a c = Ok p -> broadcast_shapes (shape a) (shape c) = Some (shape p).
Proof.
  unfold tensor_mul. destruct (broadcast_shapes _ _); [|done].
  intros [= <-]. done.
Qed.

Lemma tensor_mul_wf a c p : tensor_mul a c = Ok p -> wf p.
Proof.
  unfold tensor_mul, wf. destruct (broadcast_shapes _ _); [|done].
  intros [= <-]. simpl. rewrite length_map. apply length_indices.
Qed.

Lemma tensor_mul_raise a c e :
  tensor_mul a c = Raise e ->
  broadcast_shapes (shape a) (shape c) = None /\
  e = ShapeMismatch OpMul (shape a) (shape c).
Proof.
  unfold tensor_mul. destruct (broadcast_shapes _ _); [done|].
  intros [= <-]. done.
Qed.

Lemma relu_shape t : shape (relu t) = shape t.
Proof. done. Qed.

Lemma relu_wf t : wf t -> wf (relu t).
Proof. unfold wf. simpl. rewrite length_map. done. Qed.

(** A single contribution is its own sum. *)
Lemma aggregation_singleton t : aggregation [t] = Ok (relu t).
Proof. done. Qed.

Lemma length_linear_data (x W b : list F) nrows inn out :
  length (linear_data x W b nrows inn out) = nrows * out.
Proof.
  unfold linear_data.
  rewrite (length_flat_map_const _ _ out), length_seq; [done|].
  intros r. rewrite length_map, length_seq. done.
Qed.

Lemma linear_Ok_inv x W b t :
  linear x W b = Ok t ->
  exists lead inn out,
    shape x = lead ++ [inn] /\ shape W = [out; inn] /\ shape b = [out] /\
    shape t = lead ++ [out] /\ length (data t) = numel lead * out.
Proof.
  unfold linear. destruct (shape W) as [|out [|inn [|]]]; try done.
  destruct (rev (shape x)) as [|c lead_rev] eqn:Hx; [done|].
  destruct (c =? inn) eqn:Hc; simpl; [|done].
  case_bool_decide as Hb; [|done].
  apply Nat.eqb_eq in Hc as ->. intros [= <-]. simpl.
  exists (rev lead_rev), inn, out. repeat split; try done.
  - rewrite <- (rev_involutive (shape x)), Hx. done.
  - apply length_linear_data.
Qed.

Lemma linear_Ok x W b lead inn out :
  shape x = lead ++ [inn] -> shape W = [out; inn] -> shape b = [out] ->
  exists t, linear x W b = Ok t /\ shape t = lead ++ [out] /\
            length (data t) = numel lead * out.
Proof.
  intros Hx HW Hb. unfold linear. rewrite HW, Hx, rev_app_distr. simpl.
  rewrite Nat.eqb_refl, bool_decide_eq_true_2 by done. simpl.
  rewrite rev_involutive. eexists. repeat split.
  simpl. apply length_linear_data.
Qed.

Lemma linear_Raise x W b out inn :
  shape W = [out; inn] -> last (shape x) <> Some inn ->
  linear x W b = Raise (ShapeMismatch OpLinear (shape x) (shape W)).
Proof.
  intros HW Hx. unfold linear. rewrite HW.
  destruct (rev (shape x)) as [|c lead_rev] eqn:Hr; [done|].
  destruct (c =? inn) eqn:Hc; [|done].
  apply Nat.eqb_eq in Hc as ->. exfalso. apply Hx.
  rewrite <- (rev_involutive (shape x)), Hr. simpl. apply last_snoc.
Qed.

Lemma broadcast_rev_diag (s : list nat) : broadcast_rev s s = Some s.
Proof.
  induction s as [|a s IH]; simpl; [done|].
  unfold broadcast_dim. rewrite Nat.eqb_refl, IH. done.
Qed.

Lemma broadcast_shapes_diag (s : list nat) : broadcast_shapes s s = Some s.
Proof.
  unfold broadcast_shapes. rewrite broadcast_rev_diag. simpl.
  rewrite rev_involutive. done.
Qed.

End KernelFacts.

(** ** The product on operands of one shape *)

Section ElementWise.
Context {F : Type} {SF : Scalar F}.
Implicit Types (s idx : list nat) (d : list F).

Lemma numel_app s1 s2 : numel (s1 ++ s2) = numel s1 * numel s2.
Proof. induction s1 as [|a s1 IH]; simpl; [lia|]. rewrite IH. lia. Qed.

Lemma numel_rev s : numel (rev s) = numel s.
Proof.
  induction s as [|a s IH]; simpl; [done|].
  rewrite numel_app, IH. simpl. lia.
Qed.

Lemma offset_rev_snoc s idx a i k :
  length s = length idx ->
  offset_rev (s ++ [a]) (idx ++ [i]) k =
    offset_rev s idx k + (if a =? 1 then 0 else i) * (k * numel s).
Proof.
  revert idx k. induction s as [|x s IH]; intros [|j idx] k Hlen;
    simpl in *; try lia.
  rewrite IH by lia. lia.
Qed.

Lemma indices_length s idx : In idx (indices s) -> length idx = length s.
Proof.
  revert idx. induction s as [|a s IH]; intros idx; simpl.
  - intros [<-|[]]. done.
  - rewrite in_flat_map. intros (i & _ & Hin).
    apply in_map_iff in Hin as (idx' & <- & Hin). simpl. by rewrite (IH idx').
Qed.

(** Row-major offset of a multi-index, leading dimension first. *)
Lemma offset_cons a s i idx :
  length idx = length s -> i < a ->
  offset_rev (rev (a :: s)) (rev (i :: idx)) 1 =
    i * numel s + offset_rev (rev s) (rev idx) 1.
Proof.
  intros Hlen Hi. simpl. rewrite offset_rev_snoc by (by rewrite !length_rev).
  rewrite numel_rev. destruct (a =? 1) eqn:Ha; [|lia].
  apply Nat.eqb_eq in Ha. replace i with 0 by lia. lia.
Qed.

Lemma offset_lt s idx :
  In idx (indices s) -> offset_rev (rev s) (rev idx) 1 < numel s.
Proof.
  revert idx. induction s as [|a s IH]; intros idx.
  - intros [<-|[]]. simpl. lia.
  - cbn [indices]. rewrite in_flat_map. intros (i & Hi & Hin).
    apply in_map_iff in Hin as (idx' & <- & Hin).
    apply in_seq in Hi. rewrite offset_cons by (by apply indices_length || lia).
    specialize (IH idx' Hin). simpl. nia.
Qed.

Lemma chunks_concat (n : nat) d k :
  length d = k * n ->
  flat_map (fun i => take n (drop (i * n) d)) (seq 0 k) = d.
Proof.
  revert d. induction k as [|k IH]; intros d Hlen.
  - simpl in *. by destruct d.
  - cbn [seq flat_map]. rewrite <- seq_shift, flat_map_concat_map, map_map.
    rewrite <- flat_map_concat_map.
    etrans; [|apply (take_drop n d)]. f_equal.
    etrans; [|apply (IH (drop n d)); rewrite length_drop; lia].
    apply flat_map_ext. intros i. by rewrite drop_drop.
Qed.

(** Reading a well-formed tensor at every index of its own shape, in
    order, gives back its data. *)
Lemma gather_indices s d :
  length d = numel s ->
  map (fun idx => nth (offset_rev (rev s) (rev idx) 1) d f0) (indices s) = d.
Proof.
  revert d. induction s as [|a s IH]; intros d Hlen.
  - simpl in *. destruct d as [|x [|]]; simpl in *; done.
  - cbn [indices]. simpl in Hlen.
    etrans; [|apply (chunks_concat (numel s) d a); lia].
    rewrite !flat_map_concat_map, concat_map, map_map. f_equal.
    apply map_ext_in. intros i Hi. apply in_seq in Hi.
    rewrite map_map.
    etrans; [|apply (IH (take (numel s) (drop (i * numel s) d)));
              rewrite length_take, length_drop; nia].
    apply map_ext_in. intros idx Hin.
    rewrite offset_cons by (by apply indices_length || lia).
    pose proof (offset_lt s idx Hin) as Hlt.
    rewrite !nth_lookup, lookup_take, lookup_drop.
    by rewrite decide_True.
Qed.

Lemma bget_indices (t : Tensor F) :
  wf t -> map (bget t) (indices (shape t)) = data t.
Proof. intros Hwf. by apply gather_indices. Qed.

(** On operands of one shape the product is taken entry by entry. *)
Lemma tensor_mul_same_shape (a c : Tensor F) :
  shape a = shape c -> wf a -> wf c ->
  tensor_mul a c =
    Ok {| shape := shape a; data := zip_with fmul (data a) (data c) |}.
Proof.
  intros Hs Ha Hc. unfold tensor_mul.
  rewrite <- Hs, broadcast_shapes_diag. do 2 f_equal.
  trans (zip_with fmul (map (bget a) (indices (shape a)))
                        (map (bget c) (indices (shape a)))).
  - induction (indices (shape a)) as [|idx l IH]; simpl; [done|].
    by rewrite IH.
  - rewrite (bget_indices a Ha), Hs, (bget_indices c Hc). done.
Qed.

End ElementWise.

(** ** The kernels against the words of the specification *)

Section SpecFacts.
Context {F : Type} {SF : Scalar F}.
Implicit Types (s tgt src idx : list nat) (d : list F) (t : Tensor F).

Lemma rev_replicate {A} (k : nat) (x : A) : rev (replicate k x) = replicate k x.
Proof.
  induction k as [|k IH]; simpl; [done|].
  by rewrite IH, <- replicate_cons_app.
Qed.

Lemma Forall2_rev {A B} (P : A -> B -> Prop) (l : list A) (k : list B) :
  Forall2 P l k -> Forall2 P (rev l) (rev k).
Proof.
  induction 1 as [|x y l k Hxy _ IH]; simpl; [constructor|].
  apply Forall2_app; [done|]. by repeat constructor.
Qed.

Lemma rev_zip_with {A B C} (f : A -> B -> C) (l : list A) (k : list B) :
  length l = length k -> rev (zip_with f l k) = zip_with f (rev l) (rev k).
Proof.
  revert k. induction l as [|x l IH]; intros [|y k] Hlen; simpl in *; try done.
  rewrite IH by lia. by rewrite zip_with_app by (rewrite !length_rev; lia).
Qed.

Lemma numel_replicate_1 (k : nat) : numel (replicate k 1) = 1.
Proof. induction k as [|k IH]; simpl; [done|]. rewrite IH. done. Qed.

Lemma numel_pad_shape (r : nat) s : numel (pad_shape r s) = numel s.
Proof. unfold pad_shape. rewrite numel_app, numel_replicate_1. lia. Qed.

Lemma rev_pad_shape (r : nat) s :
  rev (pad_shape r s) = rev s ++ replicate (r - length s) 1.
Proof. unfold pad_shape. by rewrite rev_app_distr, rev_replicate. Qed.

(** Dimensions of size one that the tensor lacks do not move the offset. *)
Lemma offset_rev_ones (k : nat) idx (stride : nat) :
  offset_rev (replicate k 1) idx stride = 0.
Proof.
  revert idx stride. induction k as [|k IH]; intros [|i idx] stride; simpl;
    done.
Qed.

Lemma offset_rev_pad s (k : nat) idx (stride : nat) :
  offset_rev (s ++ replicate k 1) idx stride = offset_rev s idx stride.
Proof.
  revert idx stride. induction s as [|a s IH]; intros idx stride; simpl.
  - rewrite offset_rev_ones. by destruct idx.
  - destruct idx as [|i idx]; [done|]. by rewrite IH.
Qed.

(** What the dimension check of [*] returns is the stretched dimension. *)
Lemma broadcast_dim_spec (a c x : nat) :
  broadcast_dim a c = Some x ->
  x = spec_dim a c /\ (a = 1 \/ a = x) /\ (c = 1 \/ c = x).
Proof.
  unfold broadcast_dim, spec_dim.
  destruct (a =? c) eqn:Hac; [apply Nat.eqb_eq in Hac as ->|].
  - intros [= <-]. destruct (c =? 1); auto.
  - destruct (a =? 1) eqn:Ha; [apply Nat.eqb_eq in Ha as ->; intros [= <-]; auto|].
    destruct (c =? 1) eqn:Hc; [|done].
    apply Nat.eqb_eq in Hc as ->. intros [= <-]. auto.
Qed.

Lemma stretches_ones (r : list nat) : Forall2 stretches r (replicate (length r) 1).
Proof. induction r; simpl; constructor; [by left | done]. Qed.

Lemma stretches_refl (r : list nat) : Forall2 stretches r r.
Proof. induction r; constructor; [by right | done]. Qed.

Lemma spec_dim_ones_l (r : list nat) :
  zip_with spec_dim (replicate (length r) 1) r = r.
Proof. induction r as [|a r IH]; simpl; [done|]. by rewrite IH. Qed.

Lemma spec_dim_ones_r (r : list nat) :
  zip_with spec_dim r (replicate (length r) 1) = r.
Proof.
  induction r as [|a r IH]; simpl; [done|]. rewrite IH. f_equal.
  unfold spec_dim. destruct (a =? 1) eqn:Ha; [|done].
  by apply Nat.eqb_eq in Ha.
Qed.

Lemma broadcast_rev_spec (a c r : list nat) :
  broadcast_rev a c = Some r ->
  r = zip_with spec_dim (a ++ replicate (length c - length a) 1)
                        (c ++ replicate (length a - length c) 1) /\
  Forall2 stretches r (a ++ replicate (length r - length a) 1) /\
  Forall2 stretches r (c ++ replicate (length r - length c) 1).
Proof.
  revert c r. induction a as [|x a IH]; intros [|y c] r; simpl.
  - intros [= <-]. repeat split; constructor.
  - intros [= <-]. rewrite Nat.sub_diag. simpl. rewrite app_nil_r.
    split_and!.
    + by rewrite spec_dim_ones_l.
    + constructor; [by left | apply stretches_ones].
    + apply stretches_refl.
  - intros [= <-]. rewrite Nat.sub_diag. simpl. rewrite !app_nil_r.
    split_and!.
    + symmetry. apply (spec_dim_ones_r (x :: a)).
    + apply stretches_refl.
    + constructor; [by left | apply stretches_ones].
  - destruct (broadcast_dim x y) as [z|] eqn:Hd; [|done].
    destruct (broadcast_rev a c) as [r'|] eqn:Hr; [|done].
    intros [= <-].
    apply broadcast_dim_spec in Hd as (-> & Hx & Hy).
    destruct (IH _ _ Hr) as (-> & Ha & Hc). simpl.
    split_and!; [done | by constructor | by constructor].
Qed.

Lemma broadcast_shapes_spec (s1 s2 s : list nat) :
  broadcast_shapes s1 s2 = Some s ->
  s = spec_shape s1 s2 /\
  Forall2 stretches s (pad_shape (length s) s1) /\
  Forall2 stretches s (pad_shape (length s) s2).
Proof.
  unfold broadcast_shapes.
  destruct (broadcast_rev (rev s1) (rev s2)) as [r|] eqn:Hr; [|done].
  simpl. intros [= <-].
  apply broadcast_rev_spec in Hr as (Hr & H1 & H2).
  rewrite !length_rev in Hr, H1, H2. split_and!.
  - rewrite Hr, rev_zip_with by (rewrite !length_app, !length_rev, !length_replicate; lia).
    rewrite !rev_app_distr, !rev_replicate, !rev_involutive.
    unfold spec_shape, pad_shape.
    replace (length s1 `max` length s2 - length s1) with (length s2 - length s1)
      by lia.
    replace (length s1 `max` length s2 - length s2) with (length s1 - length s2)
      by lia.
    by rewrite !length_rev.
  - apply Forall2_rev in H1. revert H1.
    by rewrite rev_app_distr, rev_replicate, rev_involutive, length_rev.
  - apply Forall2_rev in H2. revert H2.
    by rewrite rev_app_distr, rev_replicate, rev_involutive, length_rev.
Qed.

Lemma offset_cons_stretch (m i : nat) src idx :
  length idx = length src ->
  offset_rev (rev (m :: src)) (rev (i :: idx)) 1 =
    (if m =? 1 then 0 else i) * numel src + offset_rev (rev src) (rev idx) 1.
Proof.
  intros Hlen. simpl. rewrite offset_rev_snoc by (by rewrite !length_rev).
  rewrite numel_rev. lia.
Qed.

Lemma offset_lt_stretch tgt src idx :
  Forall2 stretches tgt src -> In idx (indices tgt) ->
  offset_rev (rev src) (rev idx) 1 < numel src.
Proof.
  intros Hs. revert idx. induction Hs as [|n m tgt src Hnm Hs IH]; intros idx.
  - intros [<-|[]]. simpl. lia.
  - cbn [indices]. rewrite in_flat_map. intros (i & Hi & Hin).
    apply in_map_iff in Hin as (idx' & <- & Hin).
    apply in_seq in Hi.
    rewrite offset_cons_stretch
      by (rewrite (indices_length tgt) by done; by eapply Forall2_length).
    specialize (IH idx' Hin). simpl.
    destruct Hnm as [-> | ->]; simpl; [lia|].
    destruct (n =? 1); nia.
Qed.

(** Reading a tensor at every index of a shape it stretches to gives its
    stretched entries. *)
Lemma gather_stretch tgt src d :
  Forall2 stretches tgt src -> length d = numel src ->
  map (fun idx => nth (offset_rev (rev src) (rev idx) 1) d f0) (indices tgt) =
    stretch tgt src d.
Proof.
  intros Hs. revert d. induction Hs as [|n m tgt src Hnm Hs IH]; intros d Hlen.
  - simpl in *. destruct d as [|x [|]]; simpl in *; done.
  - cbn [indices stretch]. simpl in Hlen.
    rewrite !flat_map_concat_map, concat_map, map_map. f_equal.
    apply map_ext_in. intros i Hi. apply in_seq in Hi.
    rewrite map_map.
    assert (Hj : (if m =? 1 then 0 else i) < m)
      by (destruct Hnm as [-> | ->]; simpl; [lia | destruct (n =? 1); lia]).
    etrans; [|apply IH; rewrite length_take, length_drop; nia].
    apply map_ext_in. intros idx Hin.
    rewrite offset_cons_stretch
      by (rewrite (indices_length tgt) by done; by eapply Forall2_length).
    pose proof (offset_lt_stretch tgt src idx Hs Hin) as Hlt.
    rewrite !nth_lookup, lookup_take, lookup_drop.
    by rewrite decide_True.
Qed.

Lemma bget_stretch s t :
  Forall2 stretches s (pad_shape (length s) (shape t)) -> wf t ->
  map (bget t) (indices s) = spec_entries s t.
Proof.
  intros Hs Hwf. unfold spec_entries.
  rewrite <- (gather_stretch _ _ _ Hs) by (by rewrite numel_pad_shape).
  apply map_ext. intros idx. unfold bget.
  by rewrite rev_pad_shape, offset_rev_pad.
Qed.

(** The product of two well-formed operands that broadcast, in the words of
    the specification. *)
Lemma tensor_mul_spec (a c p : Tensor F) :
  wf a -> wf c -> tensor_mul a c = Ok p ->
  shape p = spec_shape (shape a) (shape c) /\
  data p = zip_with fmul (spec_entries (shape p) a) (spec_entries (shape p) c).
Proof.
  intros Ha Hc. unfold tensor_mul.
  destruct (broadcast_shapes (shape a) (shape c)) as [s|] eqn:Hbc; [|done].
  intros [= <-]. cbn [shape data].
  apply broadcast_shapes_spec in Hbc as (Hs & H1 & H2). split; [done|].
  rewrite <- (bget_stretch s a H1 Ha), <- (bget_stretch s c H2 Hc).
  induction (indices s) as [|idx l IH]; simpl; [done|]. by rewrite IH.
Qed.

Lemma dot_spec_dot (xs ws : list F) : dot xs ws = spec_dot f0 xs ws.
Proof.
  unfold dot. generalize f0.
  revert ws. induction xs as [|x xs IH]; intros [|w ws] acc; simpl; try done.
Qed.

Lemma split_rows_row (n C : nat) d :
  split_rows n C d = map (row C d) (seq 0 n).
Proof.
  revert d. induction n as [|n IH]; intros d; [done|].
  cbn [split_rows seq map]. f_equal.
  rewrite IH, <- seq_shift, map_map. apply map_ext. intros r.
  unfold row. by rewrite drop_drop.
Qed.

(** The projection of an input of any rank by a weight of one row. *)
Lemma linear_rows (x W b : Tensor F) (lead : list nat) (C : nat) :
  shape x = lead ++ [C] -> shape W = [1; C] -> shape b = [1] ->
  length (data W) = C ->
  linear x W b =
    Ok {| shape := lead ++ [1];
          data := map (fun r => fadd (dot (row C (data x) r) (data W))
                                     (nth 0 (data b) f0))
                      (seq 0 (numel lead)) |}.
Proof.
  intros Hx HW Hb Hlen. unfold linear. rewrite HW, Hx, Hb, rev_app_distr.
  simpl rev. simpl app.
  cbv iota. rewrite Nat.eqb_refl, bool_decide_eq_true_2 by done.
  cbn [andb]. rewrite rev_involutive.
  do 2 f_equal. unfold linear_data.
  assert (HW0 : row C (data W) 0 = data W)
    by (unfold row; simpl; apply take_ge; lia).
  generalize (seq 0 (numel lead)). intros rs. cbn [seq map]. rewrite HW0.
  induction rs as [|r rs IH]; cbn [flat_map map app]; [done|].
  by rewrite IH.
Qed.

End SpecFacts.

(** ** Running the operations on the store *)

Section Runs.
Context {F : Type} {SF : Scalar F}.
Implicit Types (st : State F) (t p x W b : Tensor F) (l : loc).

Lemma bind_Ok {A B} (m : M F A) (k : A -> M F B) st a st1 :
  m st = (Ok a, st1) -> bind m k st = k a st1.
Proof. unfold bind. intros ->. done. Qed.

Lemma bind_Raise {A B} (m : M F A) (k : A -> M F B) st e st1 :
  m st = (Raise e, st1) -> bind m k st = (Raise e, st1).
Proof. unfold bind. intros ->. done. Qed.

Lemma bind_lift_Ok {A B} (a : A) (k : A -> M F B) st :
  bind (lift (Ok a)) k st = k a st.
Proof. done. Qed.

Lemma deref_Some op l st t :
  heap st !! l = Some t -> deref op l st = (Ok t, st).
Proof. unfold deref. intros ->. done. Qed.

Lemma deref_None op l st :
  heap st !! l = None -> deref op l st = (Raise (NotATensor op), st).
Proof. unfold deref. intros ->. done. Qed.

Lemma extend_nil st : extend st [] = st.
Proof. destruct st. unfold extend. simpl. rewrite app_nil_r. done. Qed.

Lemma extend_extend st ts us : extend (extend st ts) us = extend st (ts ++ us).
Proof. unfold extend. simpl. rewrite app_assoc. done. Qed.

Lemma extend_old st ts l t :
  heap st !! l = Some t -> heap (extend st ts) !! l = Some t.
Proof. intros Hl. simpl. apply lookup_app_l_Some. done. Qed.

Lemma extend_fresh st t : heap (extend st [t]) !! length (heap st) = Some t.
Proof. simpl. apply list_lookup_middle. done. Qed.

Lemma alloc_run t st : alloc t st = (Ok (length (heap st)), extend st [t]).
Proof. done. Qed.

Lemma torch_mul_run a c st ta tc :
  heap st !! a = Some ta -> heap st !! c = Some tc ->
  torch_mul a c st =
    match tensor_mul ta tc with
    | Ok p => (Ok (length (heap st)), extend st [p])
    | Raise e => (Raise e, st)
    end.
Proof.
  intros Ha Hc. unfold torch_mul.
  rewrite (bind_Ok _ _ _ _ _ (deref_Some OpMul _ _ _ Ha)).
  rewrite (bind_Ok _ _ _ _ _ (deref_Some OpMul _ _ _ Hc)).
  unfold bind, lift. destruct (tensor_mul ta tc); done.
Qed.

Lemma Aggregation_forward_singleton l st p :
  heap st !! l = Some p ->
  Aggregation_forward [l] st = (Ok (length (heap st)), extend st [relu p]).
Proof.
  intros Hl. unfold Aggregation_forward, deref_all.
  unfold bind at 1. unfold bind at 1.
  rewrite (deref_Some OpStack _ _ _ Hl). done.
Qed.

Lemma Linear_forward_run (lin : Linear) l st x W b :
  heap st !! l = Some x ->
  heap st !! weight lin = Some W -> heap st !! bias lin = Some b ->
  Linear_forward lin l st =
    match linear x W b with
    | Ok t => (Ok (length (heap st)), extend st [t])
    | Raise e => (Raise e, st)
    end.
Proof.
  intros Hl HW Hb. unfold Linear_forward.
  rewrite (bind_Ok _ _ _ _ _ (deref_Some OpLinear _ _ _ Hl)).
  rewrite (bind_Ok _ _ _ _ _ (deref_Some OpLinear _ _ _ HW)).
  rewrite (bind_Ok _ _ _ _ _ (deref_Some OpLinear _ _ _ Hb)).
  unfold bind, lift. destruct (linear x W b); done.
Qed.

(** The whole of [forward] on a store that holds its operands. *)
Lemma forward_run {X} (self : Dist2CycleLayer) (x_e : X) Linv adjacency st ta tl W b :
  heap st !! adjacency = Some ta -> heap st !! Linv = Some tl ->
  params_at st self W b ->
  forward self x_e Linv adjacency st =
    match tensor_mul ta tl with
    | Raise e => (Raise e, st)
    | Ok p =>
        match linear (relu p) W b with
        | Raise e => (Raise e, extend st [p; relu p])
        | Ok out => (Ok (length (heap st) + 2), extend st [p; relu p; out])
        end
    end.
Proof.
  intros Ha Hl [HW Hb]. unfold forward.
  unfold bind at 1. rewrite (torch_mul_run _ _ _ _ _ Ha Hl).
  destruct (tensor_mul ta tl) as [p|e]; [|done].
  unfold bind at 1.
  rewrite (Aggregation_forward_singleton _ _ p) by apply extend_fresh.
  unfold bind at 1.
  rewrite (Linear_forward_run _ _ _ (relu p) W b);
    [|apply extend_fresh|by do 2 apply extend_old..].
  rewrite !extend_extend. simpl app.
  destruct (linear (relu p) W b) as [out|e]; [|done].
  rewrite extend_extend. simpl. unfold ret. do 2 f_equal.
  rewrite length_app. simpl. lia.
Qed.

(** Without its operands [forward] stops at the product. *)
Lemma forward_no_adjacency {X} (self : Dist2CycleLayer) (x_e : X) Linv adjacency st :
  heap st !! adjacency = None ->
  forward self x_e Linv adjacency st = (Raise (NotATensor OpMul), st).
Proof.
  intros Ha. unfold forward, torch_mul.
  rewrite (bind_Raise _ _ _ _ _
             (bind_Raise _ _ _ _ _ (deref_None OpMul _ _ Ha))). done.
Qed.

Lemma forward_no_Linv {X} (self : Dist2CycleLayer) (x_e : X) Linv adjacency st ta :
  heap st !! adjacency = Some ta -> heap st !! Linv = None ->
  forward self x_e Linv adjacency st = (Raise (NotATensor OpMul), st).
Proof.
  intros Ha Hl. unfold forward, torch_mul.
  apply bind_Raise.
  rewrite (bind_Ok _ _ _ _ _ (deref_Some OpMul _ _ _ Ha)).
  apply bind_Raise, deref_None. done.
Qed.

End Runs.

(** ** The forward pass *)

Section ForwardFacts.
Context {F : Type} {SF : Scalar F}.
Implicit Types (st : State F) (t p x W b ta tl : Tensor F) (l : loc).
Implicit Types (self : Dist2CycleLayer).

Lemma extend_at st ts i :
  heap (extend st ts) !! (length (heap st) + i) = ts !! i.
Proof.
  simpl. rewrite lookup_app_r by lia. f_equal. lia.
Qed.

Lemma layer_inv_lengths st self C W b :
  layer_inv st self C -> params_at st self W b ->
  shape W = [1; C] /\ length (data W) = C /\
  shape b = [1] /\ length (data b) = 1.
Proof.
  intros (_ & _ & W0 & b0 & [HW0 Hb0] & HsW & HwfW & Hsb & Hwfb) [HW Hb].
  rewrite HW in HW0. rewrite Hb in Hb0.
  injection HW0 as <-. injection Hb0 as <-.
  unfold wf in HwfW, Hwfb. rewrite HsW in HwfW. rewrite Hsb in Hwfb.
  simpl in HwfW, Hwfb. split_and!; [done | lia | done | lia].
Qed.

(** The caller's view of [forward] is the reference composition. *)
Lemma returned_forward {X} self (x_e : X) Linv adjacency st ta tl W b :
  heap st !! adjacency = Some ta -> heap st !! Linv = Some tl ->
  params_at st self W b ->
  returned (forward self x_e Linv adjacency st) = forward_ref W b ta tl.
Proof.
  intros Ha Hl Hp. rewrite (forward_run _ _ _ _ _ _ _ _ _ Ha Hl Hp).
  unfold forward_ref. destruct (tensor_mul ta tl) as [p|e]; [|done].
  rewrite aggregation_singleton.
  destruct (linear (relu p) W b) as [out|e]; [|done].
  unfold returned. rewrite extend_at. done.
Qed.

(** The caller's view of [forward] on any store that holds the parameters:
    operands that are no tensors are rejected by the product. *)
Lemma returned_forward_cases {X} self (x_e : X) Linv adjacency st W b :
  params_at st self W b ->
  returned (forward self x_e Linv adjacency st) =
    match heap st !! adjacency, heap st !! Linv with
    | Some ta, Some tl => forward_ref W b ta tl
    | _, _ => Raise (NotATensor OpMul)
    end.
Proof.
  intros Hp.
  destruct (heap st !! adjacency) as [ta|] eqn:Ha;
    [|by rewrite forward_no_adjacency].
  destruct (heap st !! Linv) as [tl|] eqn:Hl;
    [|by rewrite (forward_no_Linv _ _ _ _ st ta)].
  by apply returned_forward.
Qed.

(** Every method step only adds objects to the store. *)
Lemma forward_extends {X} self (x_e : X) Linv adjacency st :
  exists new, snd (forward self x_e Linv adjacency st) = extend st new.
Proof.
  unfold forward, torch_mul, Aggregation_forward, Linear_forward, deref_all.
  unfold bind, deref, lift, ret.
  repeat match goal with
         | |- context [match ?o with Some _ => _ | None => _ end] => destruct o
         | |- context [match ?r with Ok _ => _ | Raise _ => _ end] => destruct r
         | |- context [alloc ?t ?s] => rewrite (alloc_run t s)
         | |- _ => progress simpl
         | |- _ => rewrite !extend_extend
         end;
    solve [ eexists; reflexivity | exists []; symmetry; apply extend_nil ].
Qed.

End ForwardFacts.

(** ** Claims about [Dist2CycleLayer.forward] *)

Section ForwardClaims.
Context {F : Type} {SF : Scalar F}.
Implicit Types (st : State F) (t p x W b ta tl : Tensor F) (l : loc).
Implicit Types (self : Dist2CycleLayer).

(** C1: for any two edge-feature tensor objects [x_e] and [x_e'], and fixed
    [Linv], [adjacency] and parameters, [forward] gives the same result and
    the same final store, the argument being rebound to the adjacency/Linv
    product before any use; and the values held by the edge features do not
    reach the output either: replacing the tensor of [x_e'] by any other
    leaves what [forward] returns unchanged. *)
Theorem forward_ignores_edge_features self (x_e x_e' : loc) (t' : Tensor F)
    Linv adjacency st W b :
  params_at st self W b ->
  x_e' <> Linv -> x_e' <> adjacency ->
  x_e' <> weight (fc_neigh self) -> x_e' <> bias (fc_neigh self) ->
  forward self x_e Linv adjacency st = forward self x_e' Linv adjacency st /\
  returned (forward self x_e' Linv adjacency (overwrite st x_e' t')) =
  returned (forward self x_e Linv adjacency st).
Proof.
  intros [HW Hb] Hl Ha Hw Hbi. split; [reflexivity|].
  rewrite (returned_forward_cases _ _ _ _ st W b) by done.
  rewrite (returned_forward_cases _ _ _ _ (overwrite st x_e' t') W b)
    by (split; simpl; rewrite list_lookup_insert_ne; done).
  simpl. rewrite !list_lookup_insert_ne by done. done.
Qed.

(** C2: on every store holding the operands and the parameters, what
    [forward] returns is the composition of the product [adjacency * Linv],
    the sum-then-relu aggregation, which on the singleton collection is
    [relu] of the product with its shape unchanged, and the projection
    [fc_neigh].  For a layer built with [channels = C] and well-formed
    operands the tensor returned is the one the specification words:
    entry by entry the product of the stretched operands, rectified, and
    for each row its product with the weight plus the bias. *)
Theorem forward_refines_reference {X} self (x_e : X) Linv adjacency st ta tl W b :
  heap st !! adjacency = Some ta -> heap st !! Linv = Some tl ->
  params_at st self W b ->
  returned (forward self x_e Linv adjacency st) = forward_ref W b ta tl /\
  (forall r st', forward self x_e Linv adjacency st = (Ok r, st') ->
     exists p out,
       tensor_mul ta tl = Ok p /\
       aggregation [p] = Ok (relu p) /\ shape (relu p) = shape p /\
       linear (relu p) W b = Ok out /\
       heap st' !! r = Some out) /\
  (forall C, layer_inv st self C -> wf ta -> wf tl ->
     forall r st', forward self x_e Linv adjacency st = (Ok r, st') ->
       heap st' !! r = Some (spec_forward W b ta tl)).
Proof.
  intros Ha Hl Hp. split; [by apply returned_forward|]. split.
  - intros r st'. rewrite (forward_run _ _ _ _ _ _ _ _ _ Ha Hl Hp).
    destruct (tensor_mul ta tl) as [p|e]; [|done].
    destruct (linear (relu p) W b) as [out|e] eqn:Hlin; [|done].
    intros [= <- <-]. exists p, out. repeat split; try done.
    by rewrite extend_at.
  - intros C Hinv Hwfa Hwfl r st'.
    destruct (layer_inv_lengths _ _ _ _ _ Hinv Hp) as (HsW & HlW & Hsb & Hlb).
    rewrite (forward_run _ _ _ _ _ _ _ _ _ Ha Hl Hp).
    destruct (tensor_mul ta tl) as [p|e] eqn:Hmul; [|done].
    destruct (tensor_mul_spec ta tl p Hwfa Hwfl Hmul) as [Hsp Hdp].
    destruct (linear (relu p) W b) as [out|e] eqn:Hlin; [|done].
    intros [= <- <-]. rewrite extend_at. simpl. f_equal.
    pose proof Hlin as Hinv'.
    apply linear_Ok_inv in Hinv' as (lead & inn & o & Hx & HW' & _).
    rewrite HsW in HW'. injection HW' as <- <-.
    rewrite (linear_rows (relu p) W b lead C Hx HsW Hsb HlW) in Hlin.
    injection Hlin as <-. rewrite relu_shape in Hx.
    unfold spec_forward. rewrite <- Hsp, <- Hdp, Hx, last_snoc, removelast_last.
    cbn [default]. f_equal.
    rewrite split_rows_row, map_map. apply map_ext. intros i.
    rewrite dot_spec_dot. cbn [relu data]. f_equal.
    by destruct (data b).
Qed.

(** C3 (amended): for a layer built with [channels = C] and operands whose
    shapes broadcast to [(n, C)], [forward] returns a tensor of shape
    [(n, 1)]: the rows are those of the product.  The leading dimension of a
    two-dimensional [adjacency] is then [n], or it is one and [adjacency]
    is stretched along the rows of [Linv]. *)
Theorem forward_output_shape {X} self (x_e : X) Linv adjacency st C n ta tl :
  layer_inv st self C ->
  heap st !! adjacency = Some ta -> heap st !! Linv = Some tl ->
  broadcast_shapes (shape ta) (shape tl) = Some [n; C] ->
  (exists r st' out,
     forward self x_e Linv adjacency st = (Ok r, st') /\
     heap st' !! r = Some out /\
     shape out = [n; 1] /\ wf out) /\
  (forall m k, shape ta = [m; k] -> m = n \/ m = 1).
Proof.
  intros (_ & _ & W & b & Hp & HW & _ & Hb & _) Ha Hl Hbc. split.
  - rewrite (forward_run _ _ _ _ _ _ _ _ _ Ha Hl Hp).
    unfold tensor_mul. rewrite Hbc.
    match goal with |- context [relu ?q] => set (p := q) end.
    destruct (linear_Ok (relu p) W b [n] C 1) as (out & -> & Hso & Hlen);
      [done..|].
    exists (length (heap st) + 2), (extend st [p; relu p; out]), out.
    repeat split; [by rewrite extend_at | done |].
    unfold wf. rewrite Hlen, Hso. simpl. lia.
  - intros m k Hs.
    apply broadcast_shapes_spec in Hbc as (_ & Hst & _).
    rewrite Hs in Hst. apply Forall2_cons_1 in Hst as [[-> | ->] _]; auto.
Qed.

(** C5: with the parameters in the store, calling [forward] twice in
    succession on the same arguments returns equal tensors (or raises the
    same exception): nothing the first call leaves behind is read by the
    second. *)
Theorem forward_deterministic {X} self (x_e : X) Linv adjacency st W b :
  params_at st self W b ->
  let first := forward self x_e Linv adjacency st in
  let second := forward self x_e Linv adjacency (snd first) in
  returned second = returned first.
Proof.
  intros Hp. simpl.
  destruct (forward_extends self x_e Linv adjacency st) as [new Hnew].
  destruct (heap st !! adjacency) as [ta|] eqn:Ha.
  - destruct (heap st !! Linv) as [tl|] eqn:Hl.
    + rewrite (returned_forward _ _ _ _ st ta tl W b) by done.
      rewrite Hnew. destruct Hp.
      apply returned_forward; [by apply extend_old..|].
      split; by apply extend_old.
    + rewrite (forward_no_Linv _ _ _ _ st ta) by done. simpl.
      rewrite (forward_no_Linv _ _ _ _ st ta) by done. done.
  - rewrite (forward_no_adjacency _ _ _ _ st) by done. simpl.
    rewrite (forward_no_adjacency _ _ _ _ st) by done. done.
Qed.

(** C6: [forward] only creates new tensor objects.  After the call the
    weight and bias of [fc_neigh] and the operands [Linv] and [adjacency]
    hold the tensors they held before, as does every other object of the
    store, and the random generator is untouched. *)
Theorem forward_frame {X} self (x_e : X) Linv adjacency st ta tl W b :
  heap st !! adjacency = Some ta -> heap st !! Linv = Some tl ->
  params_at st self W b ->
  let st' := snd (forward self x_e Linv adjacency st) in
  params_at st' self W b /\
  heap st' !! adjacency = Some ta /\ heap st' !! Linv = Some tl /\
  gen st' = gen st /\
  forall l t, heap st !! l = Some t -> heap st' !! l = Some t.
Proof.
  intros Ha Hl [HW Hb]. simpl.
  destruct (forward_extends self x_e Linv adjacency st) as [new ->].
  repeat split; by try apply extend_old.
Qed.

End ForwardClaims.

Section ForwardErrors.
Context {F : Type} {SF : Scalar F}.
Implicit Types (st : State F) (t p x W b ta tl : Tensor F) (l : loc).
Implicit Types (self : Dist2CycleLayer).

(** C7: shape errors arise at the operation that cannot be carried out and
    reach the caller as raised.  If [adjacency] and [Linv] do not
    broadcast, [forward] raises the product's exception on an untouched
    store; if the product's trailing dimension is not the projection's
    input width, it raises the projection's exception after the product
    and the aggregate have been created, so nothing was checked ahead of
    the operations; and every exception [forward] raises is the shape
    exception of one of these two operations, unmodified. *)
Theorem forward_errors_at_operation {X} self (x_e : X) Linv adjacency st ta tl W b :
  heap st !! adjacency = Some ta -> heap st !! Linv = Some tl ->
  params_at st self W b ->
  (broadcast_shapes (shape ta) (shape tl) = None ->
     forward self x_e Linv adjacency st =
       (Raise (ShapeMismatch OpMul (shape ta) (shape tl)), st)) /\
  (forall p out inn,
     tensor_mul ta tl = Ok p -> shape W = [out; inn] ->
     last (shape p) <> Some inn ->
     forward self x_e Linv adjacency st =
       (Raise (ShapeMismatch OpLinear (shape p) (shape W)),
        extend st [p; relu p])) /\
  (forall e,
     fst (forward self x_e Linv adjacency st) = Raise e ->
     (tensor_mul ta tl = Raise e /\
      e = ShapeMismatch OpMul (shape ta) (shape tl)) \/
     (exists p, tensor_mul ta tl = Ok p /\ linear (relu p) W b = Raise e /\
                e = ShapeMismatch OpLinear (shape p) (shape W))).
Proof.
  intros Ha Hl Hp. rewrite (forward_run _ _ _ _ _ _ _ _ _ Ha Hl Hp).
  split; [|split].
  - intros Hbc. unfold tensor_mul. rewrite Hbc. done.
  - intros p out inn -> HW Hlast.
    rewrite (linear_Raise (relu p) W b out inn HW) by done. done.
  - intros e. destruct (tensor_mul ta tl) as [p|e'] eqn:Hmul.
    + destruct (linear (relu p) W b) as [out|e'] eqn:Hlin; [done|].
      simpl. intros [= ->]. right. exists p. repeat split; try done.
      revert Hlin. unfold linear.
      repeat match goal with
             | |- context [match ?u with _ => _ end] => destruct u
             end; by intros [= <-].
    + simpl. intros [= ->]. left. split; [done|].
      by apply tensor_mul_raise in Hmul as [_ ->].
Qed.

(** C9: for a layer built with [channels = C], [forward] returns only if
    the trailing dimension of the product [adjacency * Linv] is [C].  For
    square [(n, n)] operands it returns when [n = C] and otherwise raises
    the shape exception of the linear projection. *)
Theorem forward_requires_channels {X} self (x_e : X) Linv adjacency st C :
  layer_inv st self C ->
  (forall r st',
     forward self x_e Linv adjacency st = (Ok r, st') ->
     exists ta tl p,
       heap st !! adjacency = Some ta /\ heap st !! Linv = Some tl /\
       tensor_mul ta tl = Ok p /\ last (shape p) = Some C) /\
  (forall n ta tl,
     heap st !! adjacency = Some ta -> heap st !! Linv = Some tl ->
     shape ta = [n; n] -> shape tl = [n; n] ->
     (n = C -> exists r st', forward self x_e Linv adjacency st = (Ok r, st')) /\
     (n <> C ->
      fst (forward self x_e Linv adjacency st) =
        Raise (ShapeMismatch OpLinear [n; n] [1; C]))).
Proof.
  intros (_ & _ & W & b & Hp & HW & _ & Hb & _). split.
  - intros r st'.
    destruct (heap st !! adjacency) as [ta|] eqn:Ha;
      [|by rewrite forward_no_adjacency].
    destruct (heap st !! Linv) as [tl|] eqn:Hl;
      [|by rewrite (forward_no_Linv _ _ _ _ st ta)].
    rewrite (forward_run _ _ _ _ _ _ _ _ _ Ha Hl Hp).
    destruct (tensor_mul ta tl) as [p|e] eqn:Hmul; [|done].
    destruct (linear (relu p) W b) as [out|e] eqn:Hlin; [|done].
    intros _. exists ta, tl, p. repeat split; try done.
    apply linear_Ok_inv in Hlin as (lead & inn & o & Hx & HW' & _).
    rewrite HW in HW'. injection HW' as <- <-.
    rewrite relu_shape in Hx. rewrite Hx. apply last_snoc.
  - intros n ta tl Ha Hl Hsa Hsl.
    rewrite (forward_run _ _ _ _ _ _ _ _ _ Ha Hl Hp).
    unfold tensor_mul. rewrite Hsa, Hsl, broadcast_shapes_diag.
    match goal with |- context [relu ?q] => set (p := q) end.
    split.
    + intros ->.
      destruct (linear_Ok (relu p) W b [C] C 1) as (out & -> & _); eauto.
    + intros Hn.
      rewrite (linear_Raise (relu p) W b 1 C HW).
      * simpl. by rewrite HW.
      * simpl. congruence.
Qed.

(** C10: [forward] never inspects [x_e].  Whatever objects are passed for
    it, of whatever type, and whatever else the two stores hold, if the
    stores agree on [Linv], on [adjacency] and on the parameters then the
    two calls both raise the same exception or both return equal
    tensors. *)
Theorem forward_depends_only_on_operands {X Y} self (x_e : X) (x_e' : Y)
    Linv adjacency st1 st2 W b :
  heap st1 !! Linv = heap st2 !! Linv ->
  heap st1 !! adjacency = heap st2 !! adjacency ->
  params_at st1 self W b -> params_at st2 self W b ->
  returned (forward self x_e Linv adjacency st1) =
  returned (forward self x_e' Linv adjacency st2).
Proof.
  intros Hl Ha Hp1 Hp2.
  rewrite (returned_forward_cases _ _ _ _ st1 W b) by done.
  rewrite (returned_forward_cases _ _ _ _ st2 W b) by done.
  rewrite Hl, Ha. done.
Qed.

End ForwardErrors.

(** ** Initialisation *)

Section InitFacts.
Context {F : Type} {SF : Scalar F}.
Implicit Types (st : State F) (t W b : Tensor F) (l : loc).
Implicit Types (self : Dist2CycleLayer).

Lemma uniform_run l lo hi st t :
  heap st !! l = Some t ->
  uniform_ l lo hi st = (Ok tt, refill st l (shape t) lo hi (length (data t))).
Proof.
  intros Hl. unfold uniform_.
  rewrite (bind_Ok _ _ _ _ _ (deref_Some OpInit _ _ _ Hl)). done.
Qed.

Lemma kaiming_uniform_run l a nl st t o i rest gain :
  heap st !! l = Some t -> shape t = o :: i :: rest ->
  existsb (Nat.eqb 0) (shape t) = false ->
  calculate_gain nl a = Ok gain ->
  kaiming_uniform_ l a nl st =
    let bound := kaiming_bound gain (i * numel rest) in
    (Ok tt, refill st l (shape t) (fopp bound) bound (length (data t))).
Proof.
  intros Hl Hs Hz Hg. unfold kaiming_uniform_.
  rewrite (bind_Ok _ _ _ _ _ (deref_Some OpInit _ _ _ Hl)).
  rewrite Hz. unfold calculate_fan_in_and_fan_out. rewrite Hs, Hg.
  unfold bind at 1. unfold lift at 1. unfold bind at 1. unfold lift at 1.
  simpl fst. rewrite <- Hs. apply uniform_run. done.
Qed.

Lemma wide_no_zero C : 0 < C -> existsb (Nat.eqb 0) [1; C] = false.
Proof. intros HC. simpl. destruct C; [lia|done]. Qed.

Lemma Linear_reset_parameters_run self st C :
  0 < C -> layer_inv st self C ->
  Linear_reset_parameters (fc_neigh self) st = (Ok tt, after_default st self C).
Proof.
  intros HC Hinv.
  pose proof Hinv as (_ & Hne & W & b & Hp & _).
  destruct (layer_inv_lengths _ _ _ _ _ Hinv Hp) as (HsW & HlW & Hsb & Hlb).
  destruct Hp as [HW Hb].
  assert (Hlen : weight (fc_neigh self) < length (heap st))
    by (eapply lookup_lt_Some; eassumption).
  unfold Linear_reset_parameters.
  (* the default weight *)
  unfold bind at 1.
  rewrite (kaiming_uniform_run _ _ _ st W 1 C [] _ HW HsW)
    by (rewrite ?HsW; first [by apply wide_no_zero | done]).
  cbv zeta. rewrite HsW, HlW.
  match goal with |- context [refill st ?l ?s ?lo ?hi ?n] =>
    set (st1 := refill st l s lo hi n) end.
  assert (HW1 : exists W1, heap st1 !! weight (fc_neigh self) = Some W1 /\
                  shape W1 = [1; C]).
  { eexists. split; [apply list_lookup_insert_eq; done|]. done. }
  destruct HW1 as (W1 & HW1 & HsW1).
  assert (Hb1 : heap st1 !! bias (fc_neigh self) = Some b)
    by (simpl; rewrite list_lookup_insert_ne; done).
  (* the default bias *)
  rewrite (bind_Ok _ _ _ _ _ (deref_Some OpInit _ _ _ HW1)).
  unfold calculate_fan_in_and_fan_out. rewrite HsW1.
  rewrite bind_lift_Ok. simpl fst. simpl numel.
  replace (0 <? C * 1) with true by (symmetry; apply Nat.ltb_lt; lia).
  rewrite (uniform_run _ _ _ st1 b Hb1), Hsb, Hlb. done.
Qed.

Lemma after_default_other st self C l :
  l <> weight (fc_neigh self) -> l <> bias (fc_neigh self) ->
  heap (after_default st self C) !! l = heap st !! l.
Proof.
  intros Hw Hb. unfold after_default. simpl.
  rewrite !list_lookup_insert_ne by done. done.
Qed.

(** The library's default initialisation keeps the layer's invariant. *)
Lemma after_default_inv st self C :
  layer_inv st self C -> layer_inv (after_default st self C) self C.
Proof.
  intros (HC & Hne & W & b & [HW Hb] & _).
  apply lookup_lt_Some in HW, Hb.
  split; [done|]. split; [done|].
  eexists _, _. split; [split|].
  - unfold after_default. simpl. rewrite list_lookup_insert_ne by done.
    apply list_lookup_insert_eq. done.
  - unfold after_default. simpl.
    apply list_lookup_insert_eq. rewrite length_insert. done.
  - repeat split; unfold wf, draws; simpl;
      rewrite ?length_map, ?length_seq; lia.
Qed.

Lemma reset_parameters_run self st C :
  0 < C -> layer_inv st self C ->
  reset_parameters self st = (Ok tt, after_reset st self C).
Proof.
  intros HC Hinv. unfold reset_parameters.
  rewrite (bind_Ok _ _ _ _ _ (Linear_reset_parameters_run _ _ _ HC Hinv)).
  apply after_default_inv in Hinv.
  pose proof Hinv as (_ & _ & W1 & b1 & Hp & _).
  destruct (layer_inv_lengths _ _ _ _ _ Hinv Hp) as (HsW & HlW & _).
  destruct Hp as [HW _].
  rewrite (kaiming_uniform_run _ _ _ _ W1 1 C [] _ HW HsW)
    by (rewrite ?HsW; first [by apply wide_no_zero | done]).
  cbv zeta. rewrite HsW, HlW. done.
Qed.

Lemma torch_empty_wf (s : list nat) : wf (torch_empty (F:=F) s).
Proof. unfold wf, torch_empty. simpl. apply length_replicate. Qed.

(** [Dist2CycleLayer(channels=C)] returns a layer that satisfies the
    invariant, and leaves the objects of the store as they were. *)
Lemma Dist2CycleLayer_init_inv C st :
  0 < C ->
  exists self st',
    Dist2CycleLayer_init C st = (Ok self, st') /\
    layer_inv st' self C /\
    forall l t, heap st !! l = Some t -> heap st' !! l = Some t.
Proof.
  intros HC.
  set (w := length (heap st)).
  set (st1 := extend st [torch_empty [1; C]]).
  set (st2 := extend st1 [torch_empty [1]]).
  set (self := mkDist2CycleLayer C (mkLinear C 1 w (length (heap st1)))).
  assert (Hinv : layer_inv st2 self C).
  { split; [done|]. split.
    - simpl. rewrite length_app. simpl. unfold w. lia.
    - exists (torch_empty [1; C]), (torch_empty [1]).
      split; [split|].
      + apply extend_old, extend_fresh.
      + apply extend_fresh.
      + split_and!; try done; apply torch_empty_wf. }
  exists self, (after_default st2 self C). split_and!.
  - unfold Dist2CycleLayer_init, Linear_init.
    unfold bind at 1. unfold bind at 1. rewrite alloc_run.
    unfold bind at 1. rewrite alloc_run.
    unfold bind at 1.
    fold w. fold st1. fold st2.
    change (mkLinear C 1 w (length (heap st1))) with (fc_neigh self).
    rewrite (Linear_reset_parameters_run _ _ _ HC Hinv). done.
  - by apply after_default_inv.
  - intros l t Hl. pose proof (lookup_lt_Some _ _ _ Hl) as Hlt.
    rewrite after_default_other.
    + by do 2 apply extend_old.
    + simpl. unfold w. lia.
    + simpl. rewrite length_app. simpl. lia.
Qed.

End InitFacts.

Section AfterReset.
Context {F : Type} {SF : Scalar F}.
Implicit Types (st : State F) (self : Dist2CycleLayer).

Lemma after_reset_weight st self C :
  weight (fc_neigh self) < length (heap st) ->
  heap (after_reset st self C) !! weight (fc_neigh self) =
    Some {| shape := [1; C];
            data := map (uniform_sample
                           (fopp (kaiming_bound (fsqrt (fofnat 2)) (C * 1)))
                           (kaiming_bound (fsqrt (fofnat 2)) (C * 1)))
                        (draws (gen st) (pos (gen st) + C + 1) C) |}.
Proof.
  intros Hw. unfold after_reset, after_default. simpl.
  rewrite list_lookup_insert_eq by (rewrite !length_insert; done). done.
Qed.

Lemma after_reset_bias st self C :
  weight (fc_neigh self) <> bias (fc_neigh self) ->
  bias (fc_neigh self) < length (heap st) ->
  heap (after_reset st self C) !! bias (fc_neigh self) =
    Some {| shape := [1];
            data := [uniform_sample
                       (fopp (fdiv (fofnat 1) (fsqrt (fofnat (C * 1)))))
                       (fdiv (fofnat 1) (fsqrt (fofnat (C * 1))))
                       (stream (gen st) (pos (gen st) + C))] |}.
Proof.
  intros Hne Hb. unfold after_reset, after_default. simpl.
  rewrite list_lookup_insert_ne by done.
  rewrite list_lookup_insert_eq by (rewrite !length_insert; done). done.
Qed.

Lemma after_reset_other st self C l :
  l <> weight (fc_neigh self) -> l <> bias (fc_neigh self) ->
  heap (after_reset st self C) !! l = heap st !! l.
Proof.
  intros Hw Hb. unfold after_reset, after_default. simpl.
  rewrite !list_lookup_insert_ne by done. done.
Qed.

Lemma after_reset_gen st self C :
  gen (after_reset st self C) =
    {| stream := stream (gen st); pos := pos (gen st) + C + 1 + C |}.
Proof. done. Qed.

(** [reset_parameters] keeps the layer's invariant, so it can be invoked
    again on the store it leaves. *)
Lemma after_reset_inv st self C :
  layer_inv st self C -> layer_inv (after_reset st self C) self C.
Proof.
  intros (HC & Hne & W & b & [HW Hb] & _).
  apply lookup_lt_Some in HW, Hb.
  split; [done|]. split; [done|].
  eexists _, _. split; [split|].
  - by apply after_reset_weight.
  - by apply after_reset_bias.
  - repeat split; unfold wf, draws; simpl;
      rewrite ?length_map, ?length_seq; lia.
Qed.

End AfterReset.

Section RealInit.
Local Open Scope R_scope.

Lemma kaiming_bound_relu (C : nat) :
  (0 < C)%nat ->
  kaiming_bound (fsqrt (fofnat 2)) (C * 1) = sqrt (6 / INR C) /\
  0 < sqrt (6 / INR C).
Proof.
  intros HC. assert (HR : 0 < INR C) by (apply lt_0_INR; lia).
  split.
  - unfold kaiming_bound. simpl fsqrt. simpl fmul. simpl fdiv. simpl fofnat.
    rewrite Nat.mul_1_r.
    replace (6 / INR C) with ((1 + 1 + 1) * ((1 + 1) / INR C)) by (field; lra).
    rewrite sqrt_mult_alt by lra.
    rewrite sqrt_div_alt by lra. reflexivity.
  - apply sqrt_lt_R0. apply Rdiv_lt_0_compat; lra.
Qed.

Lemma uniform_sample_range (beta u : R) :
  0 < beta -> 0 <= u < 1 ->
  - beta <= uniform_sample (fopp beta) beta u < beta.
Proof.
  intros Hb [Hu0 Hu1]. unfold uniform_sample. simpl. split; nra.
Qed.

(** C4: on a layer built with [C > 0] channels, [reset_parameters]
    returns, and afterwards the weight has the shape and the number of
    entries it had before (its dtype is the element type of the store,
    which an in-place fill cannot change), every entry being
    [-beta + (beta - -beta) * u] for a fresh unit sample [u] with
    [beta = sqrt 3 * (sqrt 2 / sqrt C) = sqrt (6 / C)], the bound of the
    Kaiming uniform scheme for fan-in [C] and the relu gain [sqrt 2]; so
    every entry lies in [[-beta, beta)].  The bias keeps its shape and
    holds the library's default draw from [[-1/sqrt C, 1/sqrt C)].  The
    layer's invariant is kept, so this holds at every invocation. *)
Theorem reset_parameters_kaiming self (st : State R) (C : nat) W b :
  (0 < C)%nat ->
  layer_inv st self C -> params_at st self W b ->
  (forall i, 0 <= stream (gen st) i < 1) ->
  let beta := sqrt (INR 3) * (sqrt (INR 2) / sqrt (INR C)) in
  let gamma := 1 / sqrt (INR C) in
  exists st' W' b',
    reset_parameters self st = (Ok tt, st') /\
    params_at st' self W' b' /\
    shape W' = shape W /\ length (data W') = length (data W) /\
    data W' = map (fun u => - beta + (beta - - beta) * u)
                  (draws (gen st) (pos (gen st) + C + 1) C) /\
    beta = sqrt (6 / INR C) /\
    Forall (fun w => - beta <= w < beta) (data W') /\
    shape b' = shape b /\
    data b' = [- gamma + (gamma - - gamma) * stream (gen st) (pos (gen st) + C)] /\
    layer_inv st' self C.
Proof.
  intros HC Hinv [HW Hb] Hu beta gamma.
  pose proof Hinv as (_ & Hne & W0 & b0 & [HW0 Hb0] & HsW & HwfW & Hsb & Hwfb).
  rewrite HW in HW0. rewrite Hb in Hb0.
  injection HW0 as <-. injection Hb0 as <-.
  assert (HlW : length (data W) = C)
    by (unfold wf in HwfW; rewrite HsW in HwfW; simpl in HwfW; lia).
  destruct (kaiming_bound_relu C HC) as [Hbeta Hpos].
  assert (Hbeta' : kaiming_bound (fsqrt (fofnat 2)) (C * 1) = beta).
  { unfold kaiming_bound, beta. simpl. by rewrite Nat.mul_1_r. }
  pose proof (lookup_lt_Some _ _ _ HW) as HltW.
  pose proof (lookup_lt_Some _ _ _ Hb) as Hltb.
  eexists _, _, _.
  split; [by apply reset_parameters_run|].
  split; [split; [by apply after_reset_weight | by apply after_reset_bias]|].
  cbn [shape data]. rewrite Hbeta'.
  split_and!.
  - by rewrite HsW.
  - unfold draws. by rewrite !length_map, length_seq, HlW.
  - reflexivity.
  - congruence.
  - apply Forall_forall. intros w Hin.
    apply list_elem_of_In, in_map_iff in Hin as (u & <- & Hin).
    apply in_map_iff in Hin as (i & <- & _).
    apply uniform_sample_range; [|done]. rewrite <- Hbeta', Hbeta. done.
  - by rewrite Hsb.
  - unfold uniform_sample, gamma. simpl. by rewrite Nat.mul_1_r.
  - by apply after_reset_inv.
Qed.

End RealInit.

(** ** Concrete runs *)

Example forward_ex_store :
  returned (forward ex_layer 4 1 0 ex_store) =
    Ok (mkTensor [3; 1] [120; 104; 100]%Z).
Proof. vm_compute. reflexivity. Qed.

Example forward_ex_broadcast :
  returned (forward ex_layer 4 3 0 ex_store) =
    Ok (mkTensor [3; 1] [1100; 1200; 200]%Z).
Proof. vm_compute. reflexivity. Qed.

Example forward_ex_bad :
  forward ex_layer 4 5 0 ex_store_bad =
    (Raise (ShapeMismatch OpMul [3; 2] [2; 3]), ex_store_bad).
Proof. vm_compute. reflexivity. Qed.

Example forward_ex_square :
  fst (forward ex_layer 4 1 0 ex_store_square) =
    Raise (ShapeMismatch OpLinear [3; 3] [1; 2]).
Proof. vm_compute. reflexivity. Qed.

(** An [adjacency] with a leading dimension of one does not have the shape
    of the product: it is broadcast along the rows of [Linv], and the result
    has as many rows as [Linv]. *)
Example forward_ex_row_adjacency :
  returned (forward ex_layer 4 1 0
              (mkState [mkTensor [1; 2] [1; 1]%Z; ex_Linv; ex_weight; ex_bias]
                       ex_generator)) =
    Ok (mkTensor [3; 1] [125; 104; 170]%Z).
Proof. vm_compute. reflexivity. Qed.

Lemma ex_params : params_at ex_store ex_layer ex_weight ex_bias.
Proof. split; reflexivity. Defined.

Lemma ex_layer_inv : layer_inv ex_store ex_layer 2.
Proof.
  split; [reflexivity|]. split; [discriminate|].
  exists ex_weight, ex_bias. repeat split.
Defined.

Lemma ex_square_inv : layer_inv ex_store_square ex_layer 2.
Proof.
  split; [reflexivity|]. split; [discriminate|].
  exists ex_weight, ex_bias. repeat split.
Defined.

Lemma ex_real_inv : layer_inv ex_real_store ex_real_layer 2.
Proof.
  split; [reflexivity|]. split; [discriminate|].
  eexists _, _. repeat split.
Defined.

Lemma forward_ignores_edge_features_witness :
  returned (forward ex_layer 4 1 0 (overwrite ex_store 4 (mkTensor [7] []))) =
  returned (forward ex_layer 0 1 0 ex_store).
Proof.
  apply (forward_ignores_edge_features ex_layer 0 4 (mkTensor [7] []) 1 0
           ex_store ex_weight ex_bias ex_params); discriminate.
Defined.

Example spec_forward_ex :
  spec_forward ex_weight ex_bias ex_adjacency ex_bias =
    mkTensor [3; 1] [1100; 1200; 200]%Z.
Proof. vm_compute. reflexivity. Qed.

Lemma forward_refines_reference_witness :
  heap (snd (forward ex_layer 4 3 0 ex_store)) !! 7 =
    Some (mkTensor [3; 1] [1100; 1200; 200]%Z).
Proof.
  change (mkTensor [3; 1] [1100; 1200; 200]%Z)
    with (spec_forward ex_weight ex_bias ex_adjacency ex_bias).
  apply (proj2 (proj2 (forward_refines_reference ex_layer 4 3 0 ex_store
                         ex_adjacency ex_bias ex_weight ex_bias
                         eq_refl eq_refl ex_params))
           2 ex_layer_inv eq_refl eq_refl 7).
  reflexivity.
Defined.

Lemma ex_row_inv : layer_inv ex_store_row ex_layer 2.
Proof.
  split; [reflexivity|]. split; [discriminate|].
  exists ex_weight, ex_bias. repeat split.
Defined.

Lemma forward_output_shape_witness :
  exists r st' out,
    forward ex_layer 4 1 0 ex_store_row = (Ok r, st') /\
    heap st' !! r = Some out /\ shape out = [3; 1] /\ wf out.
Proof.
  apply (proj1 (forward_output_shape ex_layer 4 1 0 ex_store_row 2 3
                  (mkTensor [1; 2] [1; 1]%Z) ex_Linv
                  ex_row_inv eq_refl eq_refl eq_refl)).
Defined.

(** The rows of the result need not be those of [adjacency]: a layer with
    two channels, an [adjacency] of shape [(1, 2)] and an [Linv] of shape
    [(3, 2)] broadcast, and the result has three rows, not one. *)
Lemma forward_output_shape_counterexample :
  ~ (forall (st : State Z) self (C : nat) (x_e Linv adjacency : loc) ta tl n rest,
       layer_inv st self C ->
       heap st !! adjacency = Some ta -> heap st !! Linv = Some tl ->
       shape ta = n :: rest ->
       is_Some (broadcast_shapes (shape ta) (shape tl)) ->
       forall out,
         returned (forward self x_e Linv adjacency st) = Ok out ->
         shape out = [n; 1]).
Proof.
  intros H.
  specialize (H ex_store_row ex_layer 2 4 1 0
                (mkTensor [1; 2] [1; 1]%Z) ex_Linv 1 [2]
                ex_row_inv eq_refl eq_refl eq_refl (mk_is_Some _ _ eq_refl)
                (mkTensor [3; 1] [125; 104; 170]%Z) eq_refl).
  discriminate H.
Qed.

Lemma forward_deterministic_witness :
  returned (forward ex_layer 4 1 0 (snd (forward ex_layer 4 1 0 ex_store))) =
  returned (forward ex_layer 4 1 0 ex_store).
Proof.
  exact (forward_deterministic ex_layer 4 1 0 ex_store ex_weight ex_bias ex_params).
Defined.

Lemma forward_frame_witness :
  heap (snd (forward ex_layer 4 1 0 ex_store)) !! 4 = Some ex_features.
Proof.
  apply (forward_frame ex_layer 4 1 0 ex_store ex_adjacency ex_Linv
           ex_weight ex_bias eq_refl eq_refl ex_params).
  reflexivity.
Defined.

Lemma forward_errors_at_operation_witness :
  forward ex_layer 4 5 0 ex_store_bad =
    (Raise (ShapeMismatch OpMul [3; 2] [2; 3]), ex_store_bad).
Proof.
  apply (proj1 (forward_errors_at_operation ex_layer 4 5 0 ex_store_bad
                  ex_adjacency (mkTensor [2; 3] [1; 1; 1; 1; 1; 1]%Z)
                  ex_weight ex_bias
                  eq_refl eq_refl (conj eq_refl eq_refl))).
  reflexivity.
Defined.

Lemma forward_requires_channels_witness :
  fst (forward ex_layer 4 1 0 ex_store_square) =
    Raise (ShapeMismatch OpLinear [3; 3] [1; 2]).
Proof.
  apply (proj2 (forward_requires_channels ex_layer 4 1 0 ex_store_square 2
                  ex_square_inv)
           3 ex_square ex_square eq_refl eq_refl eq_refl eq_refl).
  discriminate.
Defined.

Lemma forward_depends_only_on_operands_witness :
  returned (forward ex_layer 4 1 0 ex_store) =
  returned (forward ex_layer true 1 0 ex_store').
Proof.
  exact (forward_depends_only_on_operands ex_layer 4 true 1 0 ex_store ex_store'
           ex_weight ex_bias eq_refl eq_refl ex_params (conj eq_refl eq_refl)).
Defined.

Lemma reset_parameters_kaiming_witness :
  exists st', reset_parameters ex_real_layer ex_real_store = (Ok tt, st').
Proof.
  destruct (reset_parameters_kaiming ex_real_layer ex_real_store 2
              (mkTensor [1; 2] [0; 0]%R) (mkTensor [1] [0]%R))
    as (st' & _ & _ & Hrun & _).
  - lia.
  - exact ex_real_inv.
  - split; reflexivity.
  - intros i. simpl. lra.
  - exists st'. exact Hrun.
Defined.

(** ** More on the forward pass *)

Section MatrixFacts.
Context {F : Type} {SF : Scalar F}.
Implicit Types (st : State F) (t p x W b ta tl : Tensor F) (l : loc).
Implicit Types (self : Dist2CycleLayer).

Lemma broadcast_dim_comm (a c : nat) : broadcast_dim a c = broadcast_dim c a.
Proof.
  unfold broadcast_dim.
  destruct (a =? c) eqn:Hac; [apply Nat.eqb_eq in Hac as ->; by rewrite Nat.eqb_refl|].
  rewrite (Nat.eqb_sym c a), Hac.
  destruct (a =? 1) eqn:Ha, (c =? 1) eqn:Hc; try done.
  apply Nat.eqb_eq in Ha, Hc. apply Nat.eqb_neq in Hac. lia.
Qed.

Lemma broadcast_rev_comm (s1 s2 : list nat) :
  broadcast_rev s1 s2 = broadcast_rev s2 s1.
Proof.
  revert s2. induction s1 as [|a s1 IH]; intros [|c s2]; simpl; try done.
  by rewrite broadcast_dim_comm, IH.
Qed.

Lemma broadcast_shapes_comm (s1 s2 : list nat) :
  broadcast_shapes s1 s2 = broadcast_shapes s2 s1.
Proof. unfold broadcast_shapes. by rewrite broadcast_rev_comm. Qed.

(** With a commutative scalar product the operands of [*] can be swapped;
    only the shapes named by the exception change places. *)
Lemma tensor_mul_comm a c :
  (forall u v : F, fmul u v = fmul v u) ->
  tensor_mul a c =
    match tensor_mul c a with
    | Ok p => Ok p
    | Raise _ => Raise (ShapeMismatch OpMul (shape a) (shape c))
    end.
Proof.
  intros Hcomm. unfold tensor_mul. rewrite (broadcast_shapes_comm (shape c)).
  destruct (broadcast_shapes (shape a) (shape c)); [|done].
  do 2 f_equal. apply map_ext. intros idx. apply Hcomm.
Qed.

Lemma row_relu_mul (n r : nat) (d e : list F) :
  row n (map frelu (zip_with fmul d e)) r =
    map frelu (zip_with fmul (row n d r) (row n e r)).
Proof.
  unfold row. by rewrite skipn_map, firstn_map, zip_with_drop, zip_with_take.
Qed.

(** The projection of a matrix by a weight of one row. *)
Lemma linear_matrix x W b (n C : nat) :
  shape x = [n; C] -> shape W = [1; C] -> shape b = [1] ->
  length (data W) = C ->
  linear x W b =
    Ok {| shape := [n; 1];
          data := map (fun r => fadd (dot (row C (data x) r) (data W))
                                     (nth 0 (data b) f0))
                      (seq 0 n) |}.
Proof.
  intros Hx HW Hb Hlen. unfold linear. rewrite HW, Hx, Hb. simpl rev.
  cbv iota. rewrite Nat.eqb_refl, bool_decide_eq_true_2 by done.
  cbn [andb rev app numel fold_right]. rewrite Nat.mul_1_r.
  do 2 f_equal. unfold linear_data.
  assert (HW0 : row C (data W) 0 = data W)
    by (unfold row; simpl; apply take_ge; lia).
  generalize (seq 0 n). intros rs. cbn [seq map]. rewrite HW0.
  induction rs as [|r rs IH]; cbn [flat_map map app]; [done|].
  by rewrite IH.
Qed.

End MatrixFacts.

Section ForwardMore.
Context {F : Type} {SF : Scalar F}.
Implicit Types (st : State F) (t p x W b ta tl : Tensor F) (l : loc).
Implicit Types (self : Dist2CycleLayer).

(** The reference composition on two matrices of one shape, row by row. *)
Lemma forward_ref_matrix W b ta tl (n C : nat) :
  shape W = [1; C] -> wf W -> shape b = [1] ->
  shape ta = [n; C] -> shape tl = [n; C] -> wf ta -> wf tl ->
  forward_ref W b ta tl =
    Ok {| shape := [n; 1];
          data := map (fun r =>
                         fadd (dot (map frelu (zip_with fmul (row C (data ta) r)
                                                             (row C (data tl) r)))
                                   (data W))
                              (nth 0 (data b) f0))
                      (seq 0 n) |}.
Proof.
  intros HW HwfW Hb Ha Hl Hwfa Hwfl. unfold forward_ref.
  rewrite tensor_mul_same_shape by (done || congruence).
  rewrite aggregation_singleton.
  rewrite (linear_matrix _ W b n C); try done.
  - do 2 f_equal. apply map_ext. intros r. cbn [relu data].
    by rewrite row_relu_mul.
  - unfold wf in HwfW. rewrite HW in HwfW. simpl in HwfW. lia.
Qed.

(** X1: for a layer built with [channels = C] and operands in the store,
    [forward] returns exactly when the operands broadcast to a shape whose
    trailing dimension is [C]; the tensor returned then has that shape with
    the trailing dimension replaced by one, whatever the rank, and holds one
    scalar per index. *)
Theorem forward_returns_iff {X} self (x_e : X) Linv adjacency st C ta tl :
  layer_inv st self C ->
  heap st !! adjacency = Some ta -> heap st !! Linv = Some tl ->
  (forall lead,
     broadcast_shapes (shape ta) (shape tl) = Some (lead ++ [C]) ->
     exists r st' out,
       forward self x_e Linv adjacency st = (Ok r, st') /\
       heap st' !! r = Some out /\ shape out = lead ++ [1] /\ wf out) /\
  (forall r st',
     forward self x_e Linv adjacency st = (Ok r, st') ->
     exists lead out,
       broadcast_shapes (shape ta) (shape tl) = Some (lead ++ [C]) /\
       heap st' !! r = Some out /\ shape out = lead ++ [1]).
Proof.
  intros (_ & _ & W & b & Hp & HW & _ & Hb & _) Ha Hl.
  rewrite (forward_run _ _ _ _ _ _ _ _ _ Ha Hl Hp). split.
  - intros lead Hbc. unfold tensor_mul. rewrite Hbc.
    match goal with |- context [relu ?q] => set (p := q) end.
    destruct (linear_Ok (relu p) W b lead C 1) as (out & -> & Hso & Hlen);
      [done..|].
    eexists _, _, out. split_and!; [done | by rewrite extend_at | done |].
    unfold wf. rewrite Hlen, Hso, numel_app. done.
  - intros r st'.
    destruct (tensor_mul ta tl) as [p|e] eqn:Hmul; [|done].
    destruct (linear (relu p) W b) as [out|e] eqn:Hlin; [|done].
    intros [= <- <-].
    apply linear_Ok_inv in Hlin as (lead & inn & o & Hx & HW' & _ & Hso & _).
    rewrite HW in HW'. injection HW' as <- <-.
    exists lead, out. split_and!; [|by rewrite extend_at | done].
    apply tensor_mul_shape in Hmul. by rewrite Hmul, <- Hx.
Qed.

(** X2: when the scalar product is commutative, [forward] is symmetric in
    its two structural operands: swapping [Linv] and [adjacency] returns the
    same tensor, and one call raises exactly when the other does. *)
Theorem forward_operands_commute {X} self (x_e : X) Linv adjacency st W b :
  (forall u v : F, fmul u v = fmul v u) ->
  params_at st self W b ->
  forall t,
    returned (forward self x_e Linv adjacency st) = Ok t <->
    returned (forward self x_e adjacency Linv st) = Ok t.
Proof.
  intros Hcomm Hp t.
  rewrite !(returned_forward_cases _ _ _ _ st W b) by done.
  destruct (heap st !! adjacency) as [ta|], (heap st !! Linv) as [tl|];
    try done.
  unfold forward_ref. rewrite (tensor_mul_comm ta tl Hcomm).
  destruct (tensor_mul tl ta); done.
Qed.

(** X3: on two well-formed matrices of shape [(n, C)] the layer computes,
    for each row [r], the dot product of the weight with the rectified
    entry-wise product of the rows [r] of [adjacency] and [Linv], plus the
    bias. *)
Theorem forward_matrix_rows {X} self (x_e : X) Linv adjacency st C n ta tl W b :
  layer_inv st self C -> params_at st self W b ->
  heap st !! adjacency = Some ta -> heap st !! Linv = Some tl ->
  shape ta = [n; C] -> shape tl = [n; C] -> wf ta -> wf tl ->
  returned (forward self x_e Linv adjacency st) =
    Ok {| shape := [n; 1];
          data := map (fun r =>
                         fadd (dot (map frelu (zip_with fmul (row C (data ta) r)
                                                             (row C (data tl) r)))
                                   (data W))
                              (nth 0 (data b) f0))
                      (seq 0 n) |}.
Proof.
  intros (_ & _ & W0 & b0 & [HW0 Hb0] & HsW & HwfW & Hsb & _) [HW Hb].
  rewrite HW in HW0. rewrite Hb in Hb0.
  injection HW0 as <-. injection Hb0 as <-.
  intros Ha Hl Hsa Hsl Hwfa Hwfl.
  rewrite (returned_forward _ _ _ _ st ta tl W b) by done.
  by apply forward_ref_matrix.
Qed.

End ForwardMore.

(** ** More on construction and reinitialisation *)

Section ResetMore.
Context {F : Type} {SF : Scalar F}.
Implicit Types (st : State F) (t p x W b ta tl : Tensor F) (l : loc).
Implicit Types (self : Dist2CycleLayer).

Lemma after_reset_length st self C :
  length (heap (after_reset st self C)) = length (heap st).
Proof. unfold after_reset, after_default. simpl. by rewrite !length_insert. Qed.

Lemma layer_inv_extend st self C new :
  layer_inv st self C -> layer_inv (extend st new) self C.
Proof.
  intros (HC & Hne & W & b & [HW Hb] & Hrest).
  split; [done|]. split; [done|]. exists W, b.
  split; [split; by apply extend_old | done].
Qed.

Lemma after_default_weight st self C :
  weight (fc_neigh self) <> bias (fc_neigh self) ->
  weight (fc_neigh self) < length (heap st) ->
  exists beta,
    heap (after_default st self C) !! weight (fc_neigh self) =
      Some {| shape := [1; C];
              data := map (uniform_sample (fopp beta) beta)
                          (draws (gen st) (pos (gen st)) C) |} /\
    beta = kaiming_bound
             (fsqrt (fdiv (fofnat 2)
                (fadd (fofnat 1) (fmul (fsqrt (fofnat 5)) (fsqrt (fofnat 5))))))
             (C * 1).
Proof.
  intros Hne Hw. eexists. split; [|reflexivity].
  unfold after_default. simpl. rewrite list_lookup_insert_ne by done.
  by rewrite list_lookup_insert_eq.
Qed.

Lemma after_default_bias st self C :
  bias (fc_neigh self) < length (heap st) ->
  heap (after_default st self C) !! bias (fc_neigh self) =
    Some {| shape := [1];
            data := [uniform_sample
                       (fopp (fdiv (fofnat 1) (fsqrt (fofnat (C * 1)))))
                       (fdiv (fofnat 1) (fsqrt (fofnat (C * 1))))
                       (stream (gen st) (pos (gen st) + C))] |}.
Proof.
  intros Hb. unfold after_default. simpl.
  by rewrite list_lookup_insert_eq by (by rewrite length_insert).
Qed.

(** X6: [reset_parameters] works in place on the two parameters only.  On a
    layer built with [C > 0] channels it returns, creates no object, leaves
    every object other than the weight and the bias as it was, and draws
    exactly [2 * C + 1] samples from the generator: [C + 1] for the default
    initialisation and [C] for the weight under the relu gain. *)
Theorem reset_parameters_frame self st C :
  0 < C -> layer_inv st self C ->
  exists st',
    reset_parameters self st = (Ok tt, st') /\
    length (heap st') = length (heap st) /\
    (forall l, l <> weight (fc_neigh self) -> l <> bias (fc_neigh self) ->
               heap st' !! l = heap st !! l) /\
    stream (gen st') = stream (gen st) /\
    pos (gen st') = pos (gen st) + (2 * C + 1).
Proof.
  intros HC Hinv. exists (after_reset st self C). split_and!.
  - by apply reset_parameters_run.
  - apply after_reset_length.
  - intros l. apply after_reset_other.
  - done.
  - rewrite after_reset_gen. simpl. lia.
Qed.

(** X7: [reset_parameters] never reads the old parameter values.  From two
    stores with the same generator, whatever weights and biases they hold,
    it leaves equal weights, equal biases and equal generators. *)
Theorem reset_parameters_forgets self st1 st2 C :
  0 < C -> layer_inv st1 self C -> layer_inv st2 self C ->
  gen st1 = gen st2 ->
  exists st1' st2' W' b',
    reset_parameters self st1 = (Ok tt, st1') /\
    reset_parameters self st2 = (Ok tt, st2') /\
    params_at st1' self W' b' /\ params_at st2' self W' b' /\
    gen st1' = gen st2'.
Proof.
  intros HC Hinv1 Hinv2 Hgen.
  pose proof Hinv1 as (_ & Hne & W1 & b1 & [HW1 Hb1] & _).
  pose proof Hinv2 as (_ & _ & W2 & b2 & [HW2 Hb2] & _).
  apply lookup_lt_Some in HW1, Hb1, HW2, Hb2.
  eexists (after_reset st1 self C), (after_reset st2 self C), _, _.
  split_and!; try by apply reset_parameters_run.
  - split; [by apply after_reset_weight | by apply after_reset_bias].
  - rewrite Hgen.
    split; [by apply after_reset_weight | by apply after_reset_bias].
  - by rewrite !after_reset_gen, Hgen.
Qed.

(** X8: [reset_parameters] can be invoked any number of times.  Every run
    of [n] invocations returns, keeps the layer's invariant and the size of
    the store, leaves the other objects as they were and advances the
    generator by [n * (2 * C + 1)] samples. *)
Theorem reset_parameters_times_inv (n : nat) self st C :
  0 < C -> layer_inv st self C ->
  exists st',
    reset_parameters_times n self st = (Ok tt, st') /\
    layer_inv st' self C /\
    length (heap st') = length (heap st) /\
    (forall l, l <> weight (fc_neigh self) -> l <> bias (fc_neigh self) ->
               heap st' !! l = heap st !! l) /\
    stream (gen st') = stream (gen st) /\
    pos (gen st') = pos (gen st) + n * (2 * C + 1).
Proof.
  intros HC. revert st. induction n as [|n IH]; intros st Hinv.
  - exists st. split_and!; try done; simpl; lia.
  - destruct (IH (after_reset st self C) (after_reset_inv _ _ _ Hinv))
      as (st' & Hrun & Hinv' & Hlen & Hother & Hstream & Hpos).
    exists st'. split_and!; try done.
    + cbn [reset_parameters_times].
      by rewrite (bind_Ok _ _ _ _ _ (reset_parameters_run _ _ _ HC Hinv)).
    + by rewrite Hlen, after_reset_length.
    + intros l Hw Hb. rewrite Hother by done. by apply after_reset_other.
    + rewrite Hpos, after_reset_gen. simpl. lia.
Qed.

(** X9: a [forward] that follows [reset_parameters] runs on the new
    parameters and on the operands as they were: provided the operands are
    not the parameter objects themselves, it returns the reference
    composition of the reinitialised weight and bias with the tensors that
    [adjacency] and [Linv] held before the reset. *)
Theorem forward_after_reset {X} self (x_e : X) Linv adjacency st C ta tl :
  0 < C -> layer_inv st self C ->
  heap st !! adjacency = Some ta -> heap st !! Linv = Some tl ->
  adjacency <> weight (fc_neigh self) -> adjacency <> bias (fc_neigh self) ->
  Linv <> weight (fc_neigh self) -> Linv <> bias (fc_neigh self) ->
  exists st' W' b',
    reset_parameters self st = (Ok tt, st') /\
    params_at st' self W' b' /\
    shape W' = [1; C] /\ shape b' = [1] /\
    returned ((reset_parameters self ;;; forward self x_e Linv adjacency) st) =
      forward_ref W' b' ta tl.
Proof.
  intros HC Hinv Ha Hl Haw Hab Hlw Hlb.
  pose proof (reset_parameters_run _ _ _ HC Hinv) as Hrun.
  pose proof (after_reset_inv _ _ _ Hinv) as (_ & _ & W' & b' & Hp & HsW & _ & Hsb & _).
  exists (after_reset st self C), W', b'. split_and!; try done.
  rewrite (bind_Ok _ _ _ _ _ Hrun).
  apply returned_forward; [| |done]; by rewrite after_reset_other.
Qed.

(** X10: [forward] does not disturb initialisation.  Whether it returns or
    raises, a [reset_parameters] that follows it leaves the same weight,
    bias and generator as a [reset_parameters] in its place. *)
Theorem reset_after_forward {X} self (x_e : X) Linv adjacency st C :
  0 < C -> layer_inv st self C ->
  exists st' st1' W' b',
    reset_parameters self st = (Ok tt, st') /\
    reset_parameters self (snd (forward self x_e Linv adjacency st)) =
      (Ok tt, st1') /\
    params_at st' self W' b' /\ params_at st1' self W' b' /\
    gen st1' = gen st'.
Proof.
  intros HC Hinv.
  destruct (forward_extends self x_e Linv adjacency st) as [new ->].
  pose proof (layer_inv_extend _ _ _ new Hinv) as Hinv1.
  pose proof Hinv as (_ & Hne & W & b & [HW Hb] & _).
  pose proof (lookup_lt_Some _ _ _ HW) as HltW.
  pose proof (lookup_lt_Some _ _ _ Hb) as Hltb.
  eexists (after_reset st self C), (after_reset (extend st new) self C), _, _.
  split_and!; try by apply reset_parameters_run.
  - split; [by apply after_reset_weight | by apply after_reset_bias].
  - split.
    + rewrite after_reset_weight; [done|]. simpl. rewrite length_app. lia.
    + rewrite after_reset_bias; [done..|]. simpl. rewrite length_app. lia.
  - done.
Qed.

(** The run of the constructor: two new objects, then the default
    initialisation. *)
Lemma Dist2CycleLayer_init_run (C : nat) st :
  0 < C ->
  let self :=
    mkDist2CycleLayer C (mkLinear C 1 (length (heap st)) (S (length (heap st)))) in
  let st2 := extend st [torch_empty [1; C]; torch_empty [1]] in
  layer_inv st2 self C /\
  Dist2CycleLayer_init C st = (Ok self, after_default st2 self C).
Proof.
  intros HC self st2.
  assert (Hinv : layer_inv st2 self C).
  { split; [done|]. split; [simpl; lia|].
    exists (torch_empty [1; C]), (torch_empty [1]).
    split; [split|].
    - simpl. by apply list_lookup_middle.
    - simpl. rewrite lookup_app_r by lia.
      by replace (S (length (heap st)) - length (heap st))%nat with 1%nat by lia.
    - split_and!; try done; apply torch_empty_wf. }
  split; [done|].
  unfold Dist2CycleLayer_init, Linear_init.
  unfold bind at 1. unfold bind at 1. rewrite alloc_run.
  unfold bind at 1. rewrite alloc_run, extend_extend.
  unfold bind at 1. simpl app.
  replace (length (heap (extend st [torch_empty [1; C]])))
    with (S (length (heap st))) by (simpl; rewrite length_app; simpl; lia).
  fold st2.
  change (mkLinear C 1 (length (heap st)) (S (length (heap st))))
    with (fc_neigh self).
  rewrite (Linear_reset_parameters_run _ _ _ HC Hinv). done.
Qed.

(** X11: [Dist2CycleLayer(channels=C)] for [C > 0] returns a layer with
    [channels = C] whose projection maps [C] features to one; its weight
    and bias are two new objects, placed after the objects of the store,
    which stay as they were; the layer satisfies the invariant; and the
    construction draws [C + 1] samples. *)
Theorem Dist2CycleLayer_init_spec (C : nat) st :
  0 < C ->
  exists self st',
    Dist2CycleLayer_init C st = (Ok self, st') /\
    channels self = C /\
    in_features (fc_neigh self) = C /\ out_features (fc_neigh self) = 1 /\
    weight (fc_neigh self) = length (heap st) /\
    bias (fc_neigh self) = S (length (heap st)) /\
    length (heap st') = length (heap st) + 2 /\
    layer_inv st' self C /\
    (forall l t, heap st !! l = Some t -> heap st' !! l = Some t) /\
    stream (gen st') = stream (gen st) /\
    pos (gen st') = pos (gen st) + (C + 1).
Proof.
  intros HC. destruct (Dist2CycleLayer_init_run C st HC) as [Hinv Hrun].
  eexists _, _. split; [exact Hrun|]. split_and!; try done.
  - unfold after_default. simpl. rewrite !length_insert, !length_app. simpl. lia.
  - by apply after_default_inv.
  - intros l t Hl. pose proof (lookup_lt_Some _ _ _ Hl) as Hlt.
    rewrite after_default_other; [by apply extend_old | simpl; lia..].
  - simpl. lia.
Qed.

(** X12: a layer that has just been built runs.  After
    [Dist2CycleLayer(channels=C)], [forward] on operands of the store whose
    shapes broadcast to [(n, C)] returns a tensor of shape [(n, 1)]. *)
Theorem forward_after_init {X} (x_e : X) Linv adjacency st (C n : nat) ta tl :
  0 < C ->
  heap st !! adjacency = Some ta -> heap st !! Linv = Some tl ->
  broadcast_shapes (shape ta) (shape tl) = Some [n; C] ->
  exists r st' out,
    (self <- Dist2CycleLayer_init C ;; forward self x_e Linv adjacency) st =
      (Ok r, st') /\
    heap st' !! r = Some out /\ shape out = [n; 1] /\ wf out.
Proof.
  intros HC Ha Hl Hbc.
  destruct (Dist2CycleLayer_init_inv C st HC) as (self & st1 & Hinit & Hinv & Hold).
  rewrite (bind_Ok _ _ _ _ _ Hinit).
  destruct Hinv as (_ & _ & W & b & Hp & HW & _ & Hb & _).
  rewrite (forward_run _ _ _ _ _ _ _ _ _ (Hold _ _ Ha) (Hold _ _ Hl) Hp).
  unfold tensor_mul. rewrite Hbc.
  match goal with |- context [relu ?q] => set (p := q) end.
  destruct (linear_Ok (relu p) W b [n] C 1) as (out & -> & Hso & Hlen);
    [done..|].
  eexists _, _, out. split_and!; [done | by rewrite extend_at | done |].
  unfold wf. rewrite Hlen, Hso. simpl. lia.
Qed.

End ResetMore.

Section RealMore.
Local Open Scope R_scope.

Lemma kaiming_bound_default (C : nat) :
  (0 < C)%nat ->
  kaiming_bound
    (fsqrt (fdiv (fofnat 2)
                 (fadd (fofnat 1) (fmul (fsqrt (fofnat 5)) (fsqrt (fofnat 5))))))
    (C * 1) = 1 / sqrt (INR C) /\
  fdiv (fofnat 1) (fsqrt (fofnat (C * 1))) = 1 / sqrt (INR C) /\
  0 < 1 / sqrt (INR C).
Proof.
  intros HC. assert (HR : 0 < INR C) by (apply lt_0_INR; lia).
  assert (Hs : 0 < sqrt (INR C)) by (by apply sqrt_lt_R0).
  rewrite Nat.mul_1_r. split_and!.
  - unfold kaiming_bound. simpl fsqrt. simpl fmul. simpl fdiv. simpl fadd.
    simpl fofnat. rewrite sqrt_sqrt by lra.
    replace ((1 + 1) / (1 + (1 + 1 + 1 + 1 + 1))) with (1 / (1 + 1 + 1)) by lra.
    rewrite sqrt_div_alt by lra. rewrite sqrt_1.
    assert (H3 : 0 < sqrt (1 + 1 + 1)) by (apply sqrt_lt_R0; lra).
    field. split; lra.
  - simpl. lra.
  - apply Rdiv_lt_0_compat; lra.
Qed.

(** X13: the parameters of a layer that has just been built lie within
    [1 / sqrt C] of zero: with unit samples in [[0, 1)], every entry of the
    weight and the bias is in [[-1/sqrt C, 1/sqrt C)]. *)
Theorem Dist2CycleLayer_init_range (C : nat) (st : State R) :
  (0 < C)%nat ->
  (forall i, 0 <= stream (gen st) i < 1) ->
  exists self st' W b,
    Dist2CycleLayer_init C st = (Ok self, st') /\
    params_at st' self W b /\
    Forall (fun w => - (1 / sqrt (INR C)) <= w < 1 / sqrt (INR C)) (data W) /\
    Forall (fun w => - (1 / sqrt (INR C)) <= w < 1 / sqrt (INR C)) (data b).
Proof.
  intros HC Hu. destruct (Dist2CycleLayer_init_run C st HC) as [Hinv Hrun].
  destruct (kaiming_bound_default C HC) as (HbW & Hbb & Hpos).
  pose proof Hinv as (_ & Hne & W0 & b0 & [HW0 Hb0] & _).
  apply lookup_lt_Some in HW0, Hb0.
  destruct (after_default_weight _ _ C Hne HW0) as (beta & HW & Hbeta).
  pose proof (after_default_bias _ _ C Hb0) as Hb.
  rewrite HbW in Hbeta. subst beta. rewrite Hbb in Hb.
  eexists _, _, _, _. split; [exact Hrun|]. split; [split; eassumption|].
  cbn [data]. split.
  - apply Forall_forall. intros w Hin.
    apply list_elem_of_In, in_map_iff in Hin as (u & <- & Hin).
    apply in_map_iff in Hin as (i & <- & _).
    by apply uniform_sample_range.
  - constructor; [|constructor]. by apply uniform_sample_range.
Qed.

(** X14: [reset_parameters] does not bring back the weights of
    construction.  Its weight entries range over [[-sqrt (6/C), sqrt (6/C))],
    which is wider than the [[-1/sqrt C, 1/sqrt C)] of a new layer: where the
    unit sample is zero, the entry is [-sqrt (6/C)], below [-1/sqrt C]. *)
Theorem reset_parameters_wider_than_init self (st : State R) (C k : nat) :
  (0 < C)%nat -> layer_inv st self C -> (k < C)%nat ->
  stream (gen st) (pos (gen st) + C + 1 + k) = 0 ->
  exists st' W' b',
    reset_parameters self st = (Ok tt, st') /\
    params_at st' self W' b' /\
    data W' !! k = Some (- sqrt (6 / INR C)) /\
    - sqrt (6 / INR C) < - (1 / sqrt (INR C)).
Proof.
  intros HC Hinv Hk Hzero.
  pose proof Hinv as (_ & Hne & W & b & [HW Hb] & _).
  apply lookup_lt_Some in HW, Hb.
  destruct (kaiming_bound_relu C HC) as [Hbeta Hpos].
  assert (HR : 0 < INR C) by (apply lt_0_INR; lia).
  eexists _, _, _. split; [by apply reset_parameters_run|].
  split; [split; [by apply after_reset_weight | by apply after_reset_bias]|].
  cbn [data]. rewrite Hbeta. split.
  - unfold draws. change map with (@fmap list _).
    rewrite !list_lookup_fmap, lookup_seq_lt by done. simpl.
    rewrite Hzero. unfold uniform_sample. simpl. f_equal. lra.
  - apply Ropp_lt_contravar.
    replace (1 / sqrt (INR C)) with (sqrt (1 / INR C))
      by (rewrite sqrt_div_alt, sqrt_1 by lra; done).
    apply sqrt_lt_1_alt. split.
    + apply Rlt_le, Rdiv_lt_0_compat; lra.
    + apply Rmult_lt_compat_r; [apply Rinv_0_lt_compat|]; lra.
Qed.

End RealMore.

(** ** Concrete runs of the further properties *)

Lemma forward_returns_iff_witness :
  exists r st' out,
    forward ex_layer 4 3 0 ex_store = (Ok r, st') /\
    heap st' !! r = Some out /\ shape out = [3] ++ [1] /\ wf out.
Proof.
  apply (proj1 (forward_returns_iff ex_layer 4 3 0 ex_store 2
                  ex_adjacency ex_bias ex_layer_inv eq_refl eq_refl) [3]).
  reflexivity.
Defined.

Lemma forward_operands_commute_witness :
  returned (forward ex_layer 4 0 1 ex_store) =
    Ok (mkTensor [3; 1] [120; 104; 100]%Z).
Proof.
  apply (proj1 (forward_operands_commute (SF:=Z_scalar) ex_layer 4 1 0 ex_store
                  ex_weight ex_bias Z.mul_comm ex_params _)).
  vm_compute. reflexivity.
Defined.

Lemma forward_matrix_rows_witness :
  returned (forward ex_layer 4 1 0 ex_store) =
    Ok (mkTensor [3; 1] [120; 104; 100]%Z).
Proof.
  exact (forward_matrix_rows ex_layer 4 1 0 ex_store 2 3
           ex_adjacency ex_Linv ex_weight ex_bias
           ex_layer_inv ex_params eq_refl eq_refl eq_refl eq_refl
           eq_refl eq_refl).
Defined.

Lemma reset_parameters_frame_witness :
  exists st',
    reset_parameters ex_layer ex_store = (Ok tt, st') /\
    length (heap st') = 5 /\ pos (gen st') = 5.
Proof.
  destruct (reset_parameters_frame ex_layer ex_store 2)
    as (st' & Hrun & Hlen & _ & _ & Hpos).
  - lia.
  - exact ex_layer_inv.
  - exists st'. split; [exact Hrun|]. split; [exact Hlen | exact Hpos].
Defined.

Lemma ex_other_inv : layer_inv ex_store_other ex_layer 2.
Proof.
  split; [reflexivity|]. split; [discriminate|].
  eexists _, _. repeat split.
Defined.

Lemma reset_parameters_forgets_witness :
  exists st1' st2' W' b',
    reset_parameters ex_layer ex_store = (Ok tt, st1') /\
    reset_parameters ex_layer ex_store_other = (Ok tt, st2') /\
    params_at st1' ex_layer W' b' /\ params_at st2' ex_layer W' b' /\
    gen st1' = gen st2'.
Proof.
  apply (reset_parameters_forgets ex_layer ex_store ex_store_other 2);
    [lia | exact ex_layer_inv | exact ex_other_inv | reflexivity].
Defined.

Lemma reset_parameters_times_inv_witness :
  exists st',
    reset_parameters_times 3 ex_layer ex_store = (Ok tt, st') /\
    pos (gen st') = 15.
Proof.
  destruct (reset_parameters_times_inv 3 ex_layer ex_store 2)
    as (st' & Hrun & _ & _ & _ & _ & Hpos).
  - lia.
  - exact ex_layer_inv.
  - exists st'. split; [exact Hrun | exact Hpos].
Defined.

Lemma forward_after_reset_witness :
  exists st' W' b',
    reset_parameters ex_layer ex_store = (Ok tt, st') /\
    params_at st' ex_layer W' b' /\
    shape W' = [1; 2] /\ shape b' = [1] /\
    returned ((reset_parameters ex_layer ;;; forward ex_layer 4 1 0) ex_store) =
      forward_ref W' b' ex_adjacency ex_Linv.
Proof.
  apply (forward_after_reset ex_layer 4 1 0 ex_store 2 ex_adjacency ex_Linv);
    [lia | exact ex_layer_inv | reflexivity | reflexivity | discriminate..].
Defined.

Lemma reset_after_forward_witness :
  exists st' st1' W' b',
    reset_parameters ex_layer ex_store = (Ok tt, st') /\
    reset_parameters ex_layer (snd (forward ex_layer 4 1 0 ex_store)) =
      (Ok tt, st1') /\
    params_at st' ex_layer W' b' /\ params_at st1' ex_layer W' b' /\
    gen st1' = gen st'.
Proof.
  apply (reset_after_forward ex_layer 4 1 0 ex_store 2);
    [lia | exact ex_layer_inv].
Defined.

Lemma Dist2CycleLayer_init_spec_witness :
  exists self st',
    Dist2CycleLayer_init 2 ex_store = (Ok self, st') /\
    weight (fc_neigh self) = 5 /\ bias (fc_neigh self) = 6.
Proof.
  destruct (Dist2CycleLayer_init_spec 2 ex_store)
    as (self & st' & Hrun & _ & _ & _ & Hw & Hb & _).
  - lia.
  - exists self, st'. split; [exact Hrun|]. split; [exact Hw | exact Hb].
Defined.

Lemma forward_after_init_witness :
  exists r st' out,
    (self <- Dist2CycleLayer_init 2 ;; forward self 4 1 0) ex_store =
      (Ok r, st') /\
    heap st' !! r = Some out /\ shape out = [3; 1] /\ wf out.
Proof.
  apply (forward_after_init 4 1 0 ex_store 2 3 ex_adjacency ex_Linv);
    [lia | reflexivity..].
Defined.

Lemma Dist2CycleLayer_init_range_witness :
  exists self st', Dist2CycleLayer_init 2 ex_real_store = (Ok self, st').
Proof.
  destruct (Dist2CycleLayer_init_range 2 ex_real_store)
    as (self & st' & _ & _ & Hrun & _).
  - lia.
  - intros i. simpl. lra.
  - exists self, st'. exact Hrun.
Defined.

Lemma reset_parameters_wider_than_init_witness :
  exists st', reset_parameters ex_real_layer ex_real_store = (Ok tt, st').
Proof.
  destruct (reset_parameters_wider_than_init ex_real_layer ex_real_store 2 0)
    as (st' & _ & _ & Hrun & _).
  - lia.
  - exact ex_real_inv.
  - lia.
  - reflexivity.
  - exists st'. exact Hrun.
Defined.
